(** * PyCharge: the field engine and the dipole integrator of [pycharge/simulation.py]

    A shallow embedding of the [Simulation] class.  Python floats are read as
    real numbers, numpy arrays of the query mesh's shape as functions from the
    mesh positions to reals (numpy's elementwise operators are then pointwise),
    Python objects as references into a heap, and exceptions as an error
    result. *)

From Stdlib Require Import Reals Lra List String ZArith Bool Lia.
Import ListNotations.
Open Scope R_scope.

(** ** Exceptions *)

Inductive exn : Type :=
| TypeError
| ValueError
| RuntimeError
| IndexError
| UnboundLocalError
| NotImplementedError.

Inductive result (A : Type) : Type :=
| Ok (a : A)
| Raise (e : exn).

Arguments Ok {A} a.
Arguments Raise {A} e.

Definition bind {A B : Type} (m : result A) (k : A -> result B) : result B :=
  match m with
  | Ok a => k a
  | Raise e => Raise e
  end.

Declare Scope py_scope.
Delimit Scope py_scope with py.
Notation "x <- m ;; k" := (bind m (fun x => k))
  (at level 61, m at next level, right associativity) : py_scope.
Notation "' p <- m ;; k" := (bind m (fun x => match x with p => k end))
  (at level 61, p pattern, m at next level, right associativity) : py_scope.
Open Scope py_scope.

(** A [for] loop over a list whose body may raise: the first exception leaves
    the loop. *)
Fixpoint for_each {A S : Type} (body : S -> A -> result S) (l : list A) (s : S)
  : result S :=
  match l with
  | [] => Ok s
  | a :: l' => s' <- body s a ;; for_each body l' s'
  end.

(** ** Constants ([scipy.constants]) *)

Definition c : R := 299792458.
Definition eps : R := 8.8541878128e-12.
Definition pi : R := PI.

(** ** Arrays *)

Definition ndarray (Idx : Type) : Type := Idx -> R.
Definition field3 (Idx : Type) : Type :=
  (ndarray Idx * ndarray Idx * ndarray Idx)%type.
Definition vec3 : Type := (R * R * R)%type.

Definition full {Idx : Type} (k : R) : ndarray Idx := fun _ => k.
Definition zeros {Idx : Type} : ndarray Idx := full 0.
Definition ones {Idx : Type} : ndarray Idx := full 1.
Definition lift1 {Idx : Type} (f : R -> R) (a : ndarray Idx) : ndarray Idx :=
  fun i => f (a i).
Definition lift2 {Idx : Type} (op : R -> R -> R) (a b : ndarray Idx)
  : ndarray Idx := fun i => op (a i) (b i).

Declare Scope arr_scope.
Delimit Scope arr_scope with arr.
Notation "a [+] b" := (lift2 Rplus a b) (at level 50, left associativity) : arr_scope.
Notation "a [-] b" := (lift2 Rminus a b) (at level 50, left associativity) : arr_scope.
Notation "a [*] b" := (lift2 Rmult a b) (at level 40, left associativity) : arr_scope.
Notation "a [/] b" := (lift2 Rdiv a b) (at level 40, left associativity) : arr_scope.
Notation "a [^] n" := (lift1 (fun v => v ^ n) a) (at level 30, right associativity) : arr_scope.
Open Scope arr_scope.

(** [a**0.5] *)
Definition asqrt {Idx : Type} (a : ndarray Idx) : ndarray Idx := lift1 sqrt a.

Definition arr_eq {Idx : Type} (a b : ndarray Idx) : Prop := forall i, a i = b i.
Definition field_eq {Idx : Type} (E F : field3 Idx) : Prop :=
  arr_eq (fst (fst E)) (fst (fst F)) /\
  arr_eq (snd (fst E)) (snd (fst F)) /\
  arr_eq (snd E) (snd F).
Definition field_add {Idx : Type} (E F : field3 Idx) : field3 Idx :=
  (fst (fst E) [+] fst (fst F), snd (fst E) [+] snd (fst F), snd E [+] snd F).

(** Two results agree: the same exception, or values equal at every mesh
    position. *)
Definition result_eq {A : Type} (eqv : A -> A -> Prop) (r1 r2 : result A)
  : Prop :=
  match r1, r2 with
  | Ok a, Ok b => eqv a b
  | Raise e1, Raise e2 => e1 = e2
  | _, _ => False
  end.

(** ** Objects *)

Definition cref : Type := nat.
Definition dref : Type := nat.

(** Modelled from the spec: the [Charge] class of [pycharge/charges.py], whose
    source is missing.  A charge has a signed magnitude [q] and
    position, velocity and acceleration component functions of time, applied
    elementwise to an array of times; the member charges of a dipole also keep
    the per-timestep [velocity] array that [_update_dipole] reads. *)
Module Charge.
Record t : Type := mk {
  q : R;
  xpos : R -> R;  ypos : R -> R;  zpos : R -> R;
  xvel : R -> R;  yvel : R -> R;  zvel : R -> R;
  xacc : R -> R;  yacc : R -> R;  zacc : R -> R;
  velocity : list vec3
}.

(** Modelled from the spec: [Charge.solve_time], the residual of the
    light-travel-time equation [|r(t) - r_emit(tr)| - c (t - tr)]. *)
Definition solve_time {Idx : Type} (ch : t) (tr t x y z : ndarray Idx)
  : ndarray Idx :=
  asqrt ((x [-] lift1 (xpos ch) tr) [^] 2
         [+] (y [-] lift1 (ypos ch) tr) [^] 2
         [+] (z [-] lift1 (zpos ch) tr) [^] 2)
  [-] full c [*] (t [-] tr).
End Charge.

(** Modelled from the spec: the attributes of the [Dipole] class of
    [pycharge/dipole.py] (its source is missing) that [Simulation] reads and
    writes.  The per-timestep arrays have one column per timestep;
    [t_index] is the last column written. *)
Module Dipole.
Record t : Type := mk {
  charge_pair : cref * cref;
  q : R;
  m_eff : R;
  gamma_0 : R;
  omega_0 : R;
  polar_dir : vec3;
  origin : R -> vec3;
  moment_disp : list vec3;
  moment_vel : list vec3;
  moment_acc : list vec3;
  E_total : list vec3;
  E_vel : list vec3;
  E_acc : list vec3;
  t_index : nat
}.
End Dipole.

(** The heap: what each charge and dipole object currently holds. *)
Record Heap : Type := mkHeap {
  charge_at : cref -> Charge.t;
  dipole_at : dref -> Dipole.t
}.

(** An external field callable: time and coordinate arrays to three arrays. *)
Definition ext_field : Type :=
  forall Idx : Type, R -> ndarray Idx -> ndarray Idx -> ndarray Idx -> field3 Idx.

(** The collaborators whose code is not modelled: [scipy.optimize.newton]
    (called with [func], [x0] and [tol]; [args] is folded into [func]; it
    raises when it does not converge), [Charge.__eq__], [Dipole.reset] and
    [Dipole.update_timestep].  The two methods of the dipole are modelled on
    the calls on which they return: a reset that fails, as the allocation of
    per-timestep arrays for [timesteps <= 0] does, is outside the model. *)
Class Collaborators : Type := {
  newton : forall Idx : Type,
      (ndarray Idx -> ndarray Idx) -> ndarray Idx -> R -> result (ndarray Idx);
  charge_eq : Charge.t -> Charge.t -> bool;
  reset : Heap -> dref -> Z -> R -> bool -> Heap;
  update_timestep :
    Heap -> dref -> vec3 -> vec3 -> vec3 -> option (vec3 * vec3 * vec3) -> Heap
}.

Record Simulation : Type := mkSimulation {
  E_field : option ext_field;
  B_field : option ext_field;
  h : R;
  all_charges : list cref;
  dipoles : list dref;
  timesteps : option Z;
  dt : option R;
  save_E : option bool
}.

(** One call of [optimize.newton]: the function whose root is sought, the
    initial estimate and the tolerance. *)
Record newton_call (Idx : Type) : Type := mkCall {
  func : ndarray Idx -> ndarray Idx;
  x0 : ndarray Idx;
  tol : R
}.
Arguments func {Idx} _.
Arguments x0 {Idx} _.
Arguments tol {Idx} _.

(** ** Field queries *)

Section FieldEngine.
Context {C : Collaborators} {Idx : Type}.
Implicit Types (x y z tr : ndarray Idx) (ch : Charge.t).

(** [x in seq]: some item is the object itself or compares equal to it. *)
Definition py_in (hp : Heap) (needle : cref) (seq : list cref) : bool :=
  existsb (fun item =>
             Nat.eqb item needle
             || charge_eq (charge_at hp item) (charge_at hp needle)) seq.

(** [exclude_charges is not None and charge in exclude_charges] *)
Definition excluded (hp : Heap) (cr : cref) (exclude_charges : option (list cref))
  : bool :=
  match exclude_charges with
  | None => false
  | Some l => py_in hp cr l
  end.

(** The two lines every query runs for an included charge:
    [initial_guess = -1e-12*np.ones((x.shape))] and
    [optimize.newton(charge.solve_time, initial_guess, args=(t_array, x, y, z),
    tol=self.h)]. *)
Definition initial_guess x : ndarray Idx := full (-1e-12) [*] ones.

Definition retarded_call (sim : Simulation) ch (t_array x y z : ndarray Idx)
  : newton_call Idx :=
  {| func := fun tr => Charge.solve_time ch tr t_array x y z;
     x0 := initial_guess x;
     tol := h sim |}.

Definition retarded_time (sim : Simulation) ch (t_array x y z : ndarray Idx)
  : result (ndarray Idx) :=
  let k := retarded_call sim ch t_array x y z in
  newton Idx (func k) (x0 k) (tol k).

Definition _calculate_individual_E ch tr x y z (pcharge_field : string)
  : option (field3 Idx) :=
  let rx := x [-] lift1 (Charge.xpos ch) tr in
  let ry := y [-] lift1 (Charge.ypos ch) tr in
  let rz := z [-] lift1 (Charge.zpos ch) tr in
  let r_mag := asqrt (rx [^] 2 [+] ry [^] 2 [+] rz [^] 2) in
  let vx := lift1 (Charge.xvel ch) tr in
  let vy := lift1 (Charge.yvel ch) tr in
  let vz := lift1 (Charge.zvel ch) tr in
  let ax := lift1 (Charge.xacc ch) tr in
  let ay := lift1 (Charge.yacc ch) tr in
  let az := lift1 (Charge.zacc ch) tr in
  let ux := full c [*] rx [/] r_mag [-] vx in
  let uy := full c [*] ry [/] r_mag [-] vy in
  let uz := full c [*] rz [/] r_mag [-] vz in
  let r_dot_u := rx [*] ux [+] ry [*] uy [+] rz [*] uz in
  let r_dot_a := rx [*] ax [+] ry [*] ay [+] rz [*] az in
  let vel_mag := asqrt (vx [^] 2 [+] vy [^] 2 [+] vz [^] 2) in
  let const := full (Charge.q ch / (4 * pi * eps)) [*] r_mag [/] r_dot_u [^] 3 in
  let xvel_field := const [*] (full (c ^ 2) [-] vel_mag [^] 2) [*] ux in
  let yvel_field := const [*] (full (c ^ 2) [-] vel_mag [^] 2) [*] uy in
  let zvel_field := const [*] (full (c ^ 2) [-] vel_mag [^] 2) [*] uz in
  let xacc_field := const [*] (r_dot_a [*] ux [-] r_dot_u [*] ax) in
  let yacc_field := const [*] (r_dot_a [*] uy [-] r_dot_u [*] ay) in
  let zacc_field := const [*] (r_dot_a [*] uz [-] r_dot_u [*] az) in
  if String.eqb pcharge_field "Velocity" then
    Some (xvel_field, yvel_field, zvel_field)
  else if String.eqb pcharge_field "Acceleration" then
    Some (xacc_field, yacc_field, zacc_field)
  else if String.eqb pcharge_field "Total" then
    Some (xvel_field [+] xacc_field, yvel_field [+] yacc_field,
          zvel_field [+] zacc_field)
  else None.

(** Adding the external callable's value, [if self.E_field is not None]. *)
Definition add_external (ext : option ext_field) (t : R) x y z (F : field3 Idx)
  : field3 Idx :=
  match ext with
  | None => F
  | Some f => field_add F (f Idx t x y z)
  end.

(** The body of the loop over [self.all_charges] in [calculate_E]; a [None]
    from [_calculate_individual_E] fails at [E_field[0]]. *)
Definition E_body (hp : Heap) (sim : Simulation) (t_array x y z : ndarray Idx)
  (pcharge_field : string) (exclude_charges : option (list cref))
  (acc : field3 Idx) (cr : cref) : result (field3 Idx) :=
  if excluded hp cr exclude_charges then Ok acc
  else
    let charge := charge_at hp cr in
    tr <- retarded_time sim charge t_array x y z ;;
    match _calculate_individual_E charge tr x y z pcharge_field with
    | None => Raise TypeError
    | Some E => Ok (field_add acc E)
    end.

Definition calculate_E (hp : Heap) (sim : Simulation) (t : R) x y z
  (pcharge_field : string) (exclude_charges : option (list cref))
  : result (field3 Idx) :=
  let t_array : ndarray Idx := full t in
  E <- for_each (E_body hp sim t_array x y z pcharge_field exclude_charges)
                (all_charges sim) (zeros, zeros, zeros) ;;
  Ok (add_external (E_field sim) t x y z E).

(** The field [1/(c*r_mag)*(r x E)] one charge adds in [calculate_B]. *)
Definition B_of_E ch tr x y z (E : field3 Idx) : field3 Idx :=
  let '(E_x, E_y, E_z) := E in
  let rx := x [-] lift1 (Charge.xpos ch) tr in
  let ry := y [-] lift1 (Charge.ypos ch) tr in
  let rz := z [-] lift1 (Charge.zpos ch) tr in
  let r_mag := asqrt (rx [^] 2 [+] ry [^] 2 [+] rz [^] 2) in
  (full 1 [/] (full c [*] r_mag) [*] (ry [*] E_z [-] rz [*] E_y),
   full 1 [/] (full c [*] r_mag) [*] (rz [*] E_x [-] rx [*] E_z),
   full 1 [/] (full c [*] r_mag) [*] (rx [*] E_y [-] ry [*] E_x)).

(** The loop body of [calculate_B]; a [None] fails at the unpacking
    [E_x, E_y, E_z = ...]. *)
Definition B_body (hp : Heap) (sim : Simulation) (t_array x y z : ndarray Idx)
  (pcharge_field : string) (exclude_charges : option (list cref))
  (acc : field3 Idx) (cr : cref) : result (field3 Idx) :=
  if excluded hp cr exclude_charges then Ok acc
  else
    let charge := charge_at hp cr in
    tr <- retarded_time sim charge t_array x y z ;;
    match _calculate_individual_E charge tr x y z pcharge_field with
    | None => Raise TypeError
    | Some E => Ok (field_add acc (B_of_E charge tr x y z E))
    end.

Definition calculate_B (hp : Heap) (sim : Simulation) (t : R) x y z
  (pcharge_field : string) (exclude_charges : option (list cref))
  : result (field3 Idx) :=
  let t_array : ndarray Idx := full t in
  B <- for_each (B_body hp sim t_array x y z pcharge_field exclude_charges)
                (all_charges sim) (zeros, zeros, zeros) ;;
  Ok (add_external (B_field sim) t x y z B).

(** Griffiths Eq. 10.53: [charge.q*c/(4*pi*eps*(r_mag*c-r_dot_v))]. *)
Definition individual_V ch tr x y z : ndarray Idx :=
  let rx := x [-] lift1 (Charge.xpos ch) tr in
  let ry := y [-] lift1 (Charge.ypos ch) tr in
  let rz := z [-] lift1 (Charge.zpos ch) tr in
  let r_mag := asqrt (rx [^] 2 [+] ry [^] 2 [+] rz [^] 2) in
  let vx := lift1 (Charge.xvel ch) tr in
  let vy := lift1 (Charge.yvel ch) tr in
  let vz := lift1 (Charge.zvel ch) tr in
  let r_dot_v := rx [*] vx [+] ry [*] vy [+] rz [*] vz in
  full (Charge.q ch * c)
  [/] (full (4 * pi * eps) [*] (r_mag [*] full c [-] r_dot_v)).

Definition V_body (hp : Heap) (sim : Simulation) (t_array x y z : ndarray Idx)
  (exclude_charges : option (list cref))
  (V : ndarray Idx) (cr : cref) : result (ndarray Idx) :=
  if excluded hp cr exclude_charges then Ok V
  else
    let charge := charge_at hp cr in
    tr <- retarded_time sim charge t_array x y z ;;
    Ok (V [+] individual_V charge tr x y z).

Definition calculate_V (hp : Heap) (sim : Simulation) (t : R) x y z
  (exclude_charges : option (list cref)) : result (ndarray Idx) :=
  let t_array : ndarray Idx := full t in
  for_each (V_body hp sim t_array x y z exclude_charges)
           (all_charges sim) zeros.

Definition A_body (hp : Heap) (sim : Simulation) (t_array x y z : ndarray Idx)
  (exclude_charges : option (list cref))
  (acc : field3 Idx) (cr : cref) : result (field3 Idx) :=
  if excluded hp cr exclude_charges then Ok acc
  else
    let charge := charge_at hp cr in
    tr <- retarded_time sim charge t_array x y z ;;
    let vx := lift1 (Charge.xvel charge) tr in
    let vy := lift1 (Charge.yvel charge) tr in
    let vz := lift1 (Charge.zvel charge) tr in
    let iV := individual_V charge tr x y z in
    Ok (field_add acc (vx [/] full (c ^ 2) [*] iV,
                       vy [/] full (c ^ 2) [*] iV,
                       vz [/] full (c ^ 2) [*] iV)).

Definition calculate_A (hp : Heap) (sim : Simulation) (t : R) x y z
  (exclude_charges : option (list cref)) : result (field3 Idx) :=
  let t_array : ndarray Idx := full t in
  for_each (A_body hp sim t_array x y z exclude_charges)
           (all_charges sim) (zeros, zeros, zeros).

End FieldEngine.

(** ** Construction, equality and restore *)

Inductive source : Type :=
| SrcCharge (cr : cref)
| SrcDipole (d : dref).

(** [sources]: a sequence of sources, or one source that is not a sequence. *)
Inductive sources_arg : Type :=
| Sequence (l : list source)
| Single (s : source).

Definition upd_dipole (hp : Heap) (d : dref) (v : Dipole.t) : Heap :=
  {| charge_at := charge_at hp;
     dipole_at := fun k => if Nat.eqb k d then v else dipole_at hp k |}.

Definition upd_charge (hp : Heap) (cr : cref) (v : Charge.t) : Heap :=
  {| charge_at := fun k => if Nat.eqb k cr then v else charge_at hp k;
     dipole_at := dipole_at hp |}.

(** The loop of [__init__] over the sources. *)
Definition add_source (hp : Heap) (acc : list cref * list dref) (s : source)
  : list cref * list dref :=
  match s with
  | SrcDipole d =>
      let cp := Dipole.charge_pair (dipole_at hp d) in
      ((fst acc ++ [fst cp]) ++ [snd cp], snd acc ++ [d])
  | SrcCharge cr => (fst acc ++ [cr], snd acc)
  end.

(** [h] omitted takes the default [1e-22]. *)
Definition __init__ (hp : Heap) (sources : sources_arg)
  (E_field B_field : option ext_field) (h : option R) : Simulation :=
  let sources :=
    match sources with
    | Sequence l => l
    | Single s => [s]
    end in
  let lists := fold_left (add_source hp) sources ([], []) in
  {| E_field := E_field;
     B_field := B_field;
     h := match h with Some v => v | None => 1e-22 end;
     all_charges := fst lists;
     dipoles := snd lists;
     timesteps := None;
     dt := None;
     save_E := None |}.

(** Any Python object [__eq__] may be handed. *)
Inductive pyobj : Type :=
| PySimulation (s : Simulation)
| PyOther.

Definition float_eqb (a b : R) : bool := if Req_dec_T a b then true else false.

Definition opt_eqb {A : Type} (eqb : A -> A -> bool) (a b : option A) : bool :=
  match a, b with
  | None, None => true
  | Some u, Some v => eqb u v
  | _, _ => false
  end.

Section Persistence.
Context {C : Collaborators}.

(** [==] on two lists of charges: equal lengths, and each pair is the same
    object or compares equal. *)
Fixpoint charges_eqb (hp : Heap) (l1 l2 : list cref) : bool :=
  match l1, l2 with
  | [], [] => true
  | a :: l1', b :: l2' =>
      (Nat.eqb a b || charge_eq (charge_at hp a) (charge_at hp b))
      && charges_eqb hp l1' l2'
  | _, _ => false
  end.

(** Two charges that [==] on lists takes for equal: the same object, or two
    objects that [Charge.__eq__] equates. *)
Definition same_or_equal (hp : Heap) (a b : cref) : Prop :=
  a = b \/ charge_eq (charge_at hp a) (charge_at hp b) = true.

Definition __eq__ (hp : Heap) (self : Simulation) (other : pyobj) : bool :=
  match other with
  | PySimulation o =>
      opt_eqb float_eqb (dt self) (dt o)
      && charges_eqb hp (all_charges self) (all_charges o)
      && opt_eqb Z.eqb (timesteps self) (timesteps o)
  | PyOther => false
  end.

(** The [while self != loaded_simulation] scan of [_load]: the first stored
    simulation equal to [self]; running out of entries is the [EOFError]. *)
Fixpoint scan (hp : Heap) (self : Simulation) (entries : list Simulation)
  : option Simulation :=
  match entries with
  | [] => None
  | loaded :: rest =>
      if __eq__ hp self (PySimulation loaded) then Some loaded
      else scan hp self rest
  end.

(** [dipole.__dict__ = loaded_dipole.__dict__] for the zipped dipoles. *)
Definition restore (hp : Heap) (pairs : list (dref * dref)) : Heap :=
  fold_left (fun hp' p => upd_dipole hp' (fst p) (dipole_at hp' (snd p)))
            pairs hp.

(** [_load]: [file] is what the file holds, [None] when there is no such file.
    The stored simulations are given as [pickle.load] returns them, their
    objects already in the heap.  The model covers the files that hold whole
    pickled simulations, and a [Charge.__eq__] that returns: of the exceptions
    of the [try] block, [_load] catches [FileNotFoundError] and [EOFError]
    only, and what [pickle.load] raises on other contents, or [Charge.__eq__]
    inside [self != loaded_simulation], would leave [_load]. *)
Definition _load (hp : Heap) (self : Simulation)
  (file : option (list Simulation)) : Heap * bool :=
  match file with
  | None => (hp, false)
  | Some entries =>
      match scan hp self entries with
      | None => (hp, false)
      | Some loaded_simulation =>
          (restore hp (combine (dipoles self) (dipoles loaded_simulation)),
           true)
      end
  end.

End Persistence.

(** ** Vectors with three components *)

Definition vx (v : vec3) : R := fst (fst v).
Definition vy (v : vec3) : R := snd (fst v).
Definition vz (v : vec3) : R := snd v.
Definition vadd (a b : vec3) : vec3 := (vx a + vx b, vy a + vy b, vz a + vz b).
Definition vsub (a b : vec3) : vec3 := (vx a - vx b, vy a - vy b, vz a - vz b).
Definition vmul (a b : vec3) : vec3 := (vx a * vx b, vy a * vy b, vz a * vz b).
Definition vscale (k : R) (a : vec3) : vec3 := (k * vx a, k * vy a, k * vz a).
Definition vdiv (a : vec3) (k : R) : vec3 := (vx a / k, vy a / k, vz a / k).
(** [np.linalg.norm] *)
Definition norm (a : vec3) : R := sqrt (vx a ^ 2 + vy a ^ 2 + vz a ^ 2).

(** The 2x3 array [y] of [_rk4]: displacement row and velocity row. *)
Definition state2 : Type := (vec3 * vec3)%type.
Definition sadd (a b : state2) : state2 := (vadd (fst a) (fst b), vadd (snd a) (snd b)).
Definition sscale (k : R) (a : state2) : state2 := (vscale k (fst a), vscale k (snd a)).
Definition sdiv (a : state2) (k : R) : state2 := (vdiv (fst a) k, vdiv (snd a) k).

(** Column [i] of a per-timestep array. *)
Definition col (a : list vec3) (i : nat) : result vec3 :=
  match nth_error a i with
  | Some v => Ok v
  | None => Raise IndexError
  end.

(** [a[:, 0] = v] *)
Definition set_col0 (a : list vec3) (v : vec3) : result (list vec3) :=
  match a with
  | [] => Raise IndexError
  | _ :: rest => Ok (v :: rest)
  end.

(** [np.meshgrid] of the three coordinates of [p] with matrix indexing: the
    mesh of the single point [p]. *)
Definition meshgrid (p : vec3) : field3 unit := (full (vx p), full (vy p), full (vz p)).
(** [.flatten()] of a field over the one-point mesh. *)
Definition flatten (E : field3 unit) : vec3 :=
  (fst (fst E) tt, snd (fst E) tt, snd E tt).

(** What [_E_driving] returns: one vector, or with [return_all] three. *)
Definition driving (return_all : bool) : Type :=
  if return_all then (vec3 * vec3 * vec3)%type else vec3.

Definition with_E_driving (dp : Dipole.t) (tot vel acc : list vec3) : Dipole.t :=
  {| Dipole.charge_pair := Dipole.charge_pair dp;
     Dipole.q := Dipole.q dp;
     Dipole.m_eff := Dipole.m_eff dp;
     Dipole.gamma_0 := Dipole.gamma_0 dp;
     Dipole.omega_0 := Dipole.omega_0 dp;
     Dipole.polar_dir := Dipole.polar_dir dp;
     Dipole.origin := Dipole.origin dp;
     Dipole.moment_disp := Dipole.moment_disp dp;
     Dipole.moment_vel := Dipole.moment_vel dp;
     Dipole.moment_acc := Dipole.moment_acc dp;
     Dipole.E_total := tot;
     Dipole.E_vel := vel;
     Dipole.E_acc := acc;
     Dipole.t_index := Dipole.t_index dp |}.

Definition with_run (sim : Simulation) (timesteps : Z) (dt : R) (save_E : bool)
  : Simulation :=
  {| E_field := E_field sim;
     B_field := B_field sim;
     h := h sim;
     all_charges := all_charges sim;
     dipoles := dipoles sim;
     timesteps := Some timesteps;
     dt := Some dt;
     save_E := Some save_E |}.

(** ** The dipole integrator *)

Section Integrator.
Context {C : Collaborators}.

Definition get_dt (sim : Simulation) : result R :=
  match dt sim with
  | Some v => Ok v
  | None => Raise TypeError
  end.

Definition _E_driving (hp : Heap) (sim : Simulation) (t : R) (d : dref)
  (return_all : bool) : result (driving return_all) :=
  let dipole := dipole_at hp d in
  let '(x, y, z) := meshgrid (Dipole.origin dipole t) in
  let charge_pair :=
    Some [fst (Dipole.charge_pair dipole); snd (Dipole.charge_pair dipole)] in
  E_total <- calculate_E hp sim t x y z "Total" charge_pair ;;
  match return_all as b return result (driving b) with
  | false => Ok (vmul (Dipole.polar_dir dipole) (flatten E_total))
  | true =>
      E_vel <- calculate_E hp sim t x y z "Velocity" charge_pair ;;
      E_acc <- calculate_E hp sim t x y z "Acceleration" charge_pair ;;
      Ok (vmul (Dipole.polar_dir dipole) (flatten E_total),
          vmul (Dipole.polar_dir dipole) (flatten E_vel),
          vmul (Dipole.polar_dir dipole) (flatten E_acc))
  end.

(** The right-hand side of the oscillator equation, given the forcing. *)
Definition LO_rhs (dipole : Dipole.t) (E_driving : vec3) (y : state2) : state2 :=
  (snd y,
   vsub (vsub (vscale (Dipole.q dipole / Dipole.m_eff dipole) E_driving)
              (vscale (Dipole.gamma_0 dipole) (snd y)))
        (vscale (Dipole.omega_0 dipole ^ 2) (fst y))).

Definition _LO_equation (hp : Heap) (sim : Simulation) (t : R) (y : state2)
  (d : dref) : result state2 :=
  E_driving <- _E_driving hp sim t d false ;;
  Ok (LO_rhs (dipole_at hp d) E_driving y).

Definition _rk4 (hp : Heap) (sim : Simulation) (t_step : nat) (d : dref)
  : result state2 :=
  let dipole := dipole_at hp d in
  y0 <- col (Dipole.moment_disp dipole) t_step ;;
  y1 <- col (Dipole.moment_vel dipole) t_step ;;
  let y := (y0, y1) in
  dt <- get_dt sim ;;
  let t := INR t_step * dt in
  f1 <- _LO_equation hp sim t y d ;;
  let k1 := sscale dt f1 in
  f2 <- _LO_equation hp sim (t + dt / 2) (sadd y (sdiv k1 2)) d ;;
  let k2 := sscale dt f2 in
  f3 <- _LO_equation hp sim (t + dt / 2) (sadd y (sdiv k2 2)) d ;;
  let k3 := sscale dt f3 in
  f4 <- _LO_equation hp sim (t + dt) (sadd y k3) d ;;
  let k4 := sscale dt f4 in
  Ok (sadd y (sscale (1 / 6)
                     (sadd (sadd (sadd k1 (sscale 2 k2)) (sscale 2 k3)) k4))).

Definition _update_dipole (hp : Heap) (sim : Simulation) (tstep : nat)
  (d : dref) (moment_disp moment_vel : vec3) (max_vel : R) : result Heap :=
  dt <- get_dt sim ;;
  let t := dt * INR (tstep + 1) in
  old_vel <- col (Dipole.moment_vel (dipole_at hp d)) tstep ;;
  let moment_acc := vdiv (vsub moment_vel old_vel) dt in
  E_driving <-
    match save_E sim with
    | Some true => E <- _E_driving hp sim t d true ;; Ok (Some E)
    | _ => Ok None
    end ;;
  let hp' := update_timestep hp d moment_disp moment_vel moment_acc E_driving in
  let charge0 := charge_at hp' (fst (Dipole.charge_pair (dipole_at hp' d))) in
  v <- col (Charge.velocity charge0) (tstep + 1) ;;
  let norm_vel := norm v in
  if Rlt_dec max_vel norm_vel then Raise ValueError else Ok hp'.

(** Seeding the driving field at [t = 0] for one dipole. *)
Definition seed_E_driving (sim : Simulation) (hp : Heap) (d : dref)
  : result Heap :=
  E_driving <- _E_driving hp sim 0 d true ;;
  let dipole := dipole_at hp d in
  tot <- set_col0 (Dipole.E_total dipole) (fst (fst E_driving)) ;;
  vel <- set_col0 (Dipole.E_vel dipole) (snd (fst E_driving)) ;;
  acc <- set_col0 (Dipole.E_acc dipole) (snd E_driving) ;;
  Ok (upd_dipole hp d (with_E_driving dipole tot vel acc)).

Definition _init_simulation (hp : Heap) (sim : Simulation) (timesteps : Z)
  (dt : R) (save_E : bool) : result (Heap * Simulation) :=
  let sim' := with_run sim timesteps dt save_E in
  let hp1 :=
    fold_left (fun hp' d => reset hp' d timesteps dt save_E) (dipoles sim') hp in
  if save_E then
    hp2 <- for_each (seed_E_driving sim') (dipoles sim') hp1 ;;
    Ok (hp2, sim')
  else Ok (hp1, sim').

(** One timestep of [run]: every dipole in turn. *)
Definition step_dipole (sim : Simulation) (max_vel : R) (tstep : nat)
  (hp : Heap) (d : dref) : result Heap :=
  y <- _rk4 hp sim tstep d ;;
  _update_dipole hp sim tstep d (fst y) (snd y) max_vel.

Definition run_step (sim : Simulation) (max_vel : R) (ds : list dref)
  (hp : Heap) (tstep : nat) : result Heap :=
  for_each (step_dipole sim max_vel tstep) ds hp.

(** [range(self.timesteps-1)] *)
Definition tsteps (sim : Simulation) : result (list nat) :=
  match timesteps sim with
  | Some n => Ok (seq 0 (Z.to_nat (n - 1)))
  | None => Raise TypeError
  end.

(** What a run leaves: the heap, the simulation's attributes and, when
    [_save] ran, the simulation appended to the file. *)
Record run_result : Type := mkRun {
  heap_after : Heap;
  sim_after : Simulation;
  saved : option Simulation
}.

(** [run]: [file] is [None] when no file name is given, and otherwise what the
    named file holds; [max_vel] omitted takes the default [c/100]. *)
Definition run (hp : Heap) (sim : Simulation) (timesteps : Z) (dt : R)
  (file : option (option (list Simulation))) (save_E : bool)
  (max_vel : option R) : result run_result :=
  let max_vel := match max_vel with Some v => v | None => c / 100 end in
  '(hp1, sim1) <- _init_simulation hp sim timesteps dt save_E ;;
  let loaded :=
    match file with
    | Some contents => _load hp1 sim1 contents
    | None => (hp1, false)
    end in
  if snd loaded then
    Ok {| heap_after := fst loaded; sim_after := sim1; saved := None |}
  else
    steps <- tsteps sim1 ;;
    hp2 <- for_each (run_step sim1 max_vel (dipoles sim1)) steps (fst loaded) ;;
    Ok {| heap_after := hp2;
          sim_after := sim1;
          saved := match file with Some _ => Some sim1 | None => None end |}.

(** ** The MPI variant, as one process sees it *)

(** What [from mpi4py import MPI] provides when the package is installed: the
    size of [COMM_WORLD], this process's rank, and what [bcast] hands this
    process at a timestep from a root other than itself. *)
Record MPI_module : Type := mkMPI {
  Get_size : nat;
  Get_rank : nat;
  bcast_from : nat -> nat -> list (vec3 * vec3)
}.

(** [l[start::step]] *)
Definition slice_step {A : Type} (l : list A) (start step : nat) : list A :=
  map snd
      (filter (fun p => Nat.leb start (fst p)
                        && Nat.eqb ((fst p - start) mod step) 0)
              (combine (seq 0 (List.length l)) l)).

(** The dipoles this process advances at one timestep. *)
Definition mpi_own_step (sim : Simulation) (max_vel : R) (tstep : nat)
  (hp : Heap) (d : dref) : result Heap :=
  y <- _rk4 hp sim tstep d ;;
  _update_dipole hp sim tstep d (fst y) (snd y) max_vel.

(** Receiving the moments another rank broadcast and updating its dipoles. *)
Definition mpi_receive (sim : Simulation) (max_vel : R) (MPI : MPI_module)
  (tstep : nat) (hp : Heap) (bcast_rank : nat) : result Heap :=
  if Nat.eqb (Get_rank MPI) bcast_rank then Ok hp
  else
    let bcast_data := bcast_from MPI tstep bcast_rank in
    for_each (fun hp' p =>
                _update_dipole hp' sim tstep (fst p) (fst (snd p))
                               (snd (snd p)) max_vel)
             (combine (slice_step (dipoles sim) bcast_rank (Get_size MPI))
                      bcast_data)
             hp.

Definition mpi_step (sim : Simulation) (max_vel : R) (MPI : MPI_module)
  (process_dipoles : list dref) (hp : Heap) (tstep : nat) : result Heap :=
  hp1 <- for_each (mpi_own_step sim max_vel tstep) process_dipoles hp ;;
  for_each (mpi_receive sim max_vel MPI tstep) (seq 0 (Get_size MPI)) hp1.

(** [run_mpi]: [mpi4py] is [None] when the import fails.  The [except] branch
    builds a [NotImplementedError] and drops it, so execution goes on to
    [_init_simulation]; the name [MPI] is then unbound at [MPI.COMM_WORLD]. *)
Definition run_mpi (mpi4py : option MPI_module) (hp : Heap) (sim : Simulation)
  (timesteps : Z) (dt : R) (file : option (option (list Simulation)))
  (save_E : bool) (max_vel : option R) : result run_result :=
  let max_vel := match max_vel with Some v => v | None => c / 100 end in
  '(hp1, sim1) <- _init_simulation hp sim timesteps dt save_E ;;
  let loaded :=
    match file with
    | Some contents => _load hp1 sim1 contents
    | None => (hp1, false)
    end in
  if snd loaded then
    Ok {| heap_after := fst loaded; sim_after := sim1; saved := None |}
  else
    match mpi4py with
    | None => Raise UnboundLocalError
    | Some MPI =>
        let mpi_size := Get_size MPI in
        let mpi_rank := Get_rank MPI in
        if Nat.eqb mpi_size 0 then Raise ValueError
        else
          let process_dipoles := slice_step (dipoles sim1) mpi_rank mpi_size in
          steps <- tsteps sim1 ;;
          hp2 <- for_each (mpi_step sim1 max_vel MPI process_dipoles) steps
                          (fst loaded) ;;
          Ok {| heap_after := hp2;
                sim_after := sim1;
                saved := match file with
                         | Some _ => if Nat.eqb mpi_rank 0 then Some sim1 else None
                         | None => None
                         end |}
    end.

End Integrator.

(** ** Reading the specification's formulas *)

Definition cross (a b : vec3) : vec3 :=
  (vy a * vz b - vz a * vy b, vz a * vx b - vx a * vz b, vx a * vy b - vy a * vx b).

Definition at_pos {Idx : Type} (F : field3 Idx) (i : Idx) : vec3 :=
  (fst (fst F) i, snd (fst F) i, snd F i).

(** The observation point minus the charge's retarded position. *)
Definition r_at {Idx : Type} (ch : Charge.t) (tr x y z : ndarray Idx) (i : Idx)
  : vec3 :=
  (x i - Charge.xpos ch (tr i), y i - Charge.ypos ch (tr i),
   z i - Charge.zpos ch (tr i)).

(** The unit vector along [r]. *)
Definition unit_vec (r : vec3) : vec3 := vdiv r (norm r).

(** [(1/(c|r|)) (r^ x E)], with the unit vector [r^]. *)
Definition B_unit_cross {Idx : Type} (ch : Charge.t) (tr x y z : ndarray Idx)
  (E : field3 Idx) (i : Idx) : vec3 :=
  let r := r_at ch tr x y z i in
  vscale (1 / (c * norm r)) (cross (unit_vec r) (at_pos E i)).

(** [(1/(c|r|)) (r x E)], with [r] itself. *)
Definition B_cross {Idx : Type} (ch : Charge.t) (tr x y z : ndarray Idx)
  (E : field3 Idx) (i : Idx) : vec3 :=
  let r := r_at ch tr x y z i in
  vscale (1 / (c * norm r)) (cross r (at_pos E i)).

(** Elementwise sum of two query results. *)
Definition sum_results {Idx : Type} (r1 r2 : result (field3 Idx))
  : result (field3 Idx) :=
  a <- r1 ;; b <- r2 ;; Ok (field_add a b).

Definition set_external (sim : Simulation) (E B : option ext_field) (h' : R)
  : Simulation :=
  {| E_field := E;
     B_field := B;
     h := h';
     all_charges := all_charges sim;
     dipoles := dipoles sim;
     timesteps := timesteps sim;
     dt := dt sim;
     save_E := save_E sim |}.

Definition set_charges (sim : Simulation) (l : list cref) : Simulation :=
  {| E_field := E_field sim;
     B_field := B_field sim;
     h := h sim;
     all_charges := l;
     dipoles := dipoles sim;
     timesteps := timesteps sim;
     dt := dt sim;
     save_E := save_E sim |}.

(** The mode selectors [_calculate_individual_E] knows. *)
Definition recognized (pcharge_field : string) : Prop :=
  pcharge_field = "Velocity"%string \/ pcharge_field = "Acceleration"%string
  \/ pcharge_field = "Total"%string.

(** The first charge of a list that the exclusion list does not skip. *)
Fixpoint first_included {C : Collaborators} (hp : Heap)
  (exclude_charges : option (list cref)) (l : list cref) : option cref :=
  match l with
  | [] => None
  | cr :: l' =>
      if excluded hp cr exclude_charges then first_included hp exclude_charges l'
      else Some cr
  end.




(** The three mode loops run in step: all three raise the same exception, or
    the Total accumulator is the sum of the other two. *)
Definition modes_agree {Idx : Type} (rt rv ra : result (field3 Idx)) : Prop :=
  match rt, rv, ra with
  | Ok T, Ok V, Ok A => field_eq T (field_add V A)
  | Raise e1, Raise e2, Raise e3 => e1 = e2 /\ e2 = e3
  | _, _, _ => False
  end.

(** The three component arrays of [(1/(c|r|)) (r x E)]. *)
Definition B_cross_field {Idx : Type} (ch : Charge.t) (tr x y z : ndarray Idx)
  (E : field3 Idx) : field3 Idx :=
  (fun i => vx (B_cross ch tr x y z E i),
   fun i => vy (B_cross ch tr x y z E i),
   fun i => vz (B_cross ch tr x y z E i)).

(** The sum, over the charges that are not excluded, of [(1/(c|r|)) (r x E)]
    with [E] the charge's own E-field in the selected mode. *)
Fixpoint B_sum {C : Collaborators} {Idx : Type} (hp : Heap) (sim : Simulation)
  (t_array x y z : ndarray Idx) (pcharge_field : string)
  (exclude_charges : option (list cref)) (l : list cref)
  : result (field3 Idx) :=
  match l with
  | [] => Ok (zeros, zeros, zeros)
  | cr :: l' =>
      if excluded hp cr exclude_charges then
        B_sum hp sim t_array x y z pcharge_field exclude_charges l'
      else
        let charge := charge_at hp cr in
        tr <- retarded_time sim charge t_array x y z ;;
        match _calculate_individual_E charge tr x y z pcharge_field with
        | None => Raise TypeError
        | Some E =>
            rest <- B_sum hp sim t_array x y z pcharge_field exclude_charges l' ;;
            Ok (field_add (B_cross_field charge tr x y z E) rest)
        end
  end.

(** One Runge-Kutta step of the oscillator from the state [y], the forcing of
    each of the four stages given. *)
Definition rk4_forced (dipole : Dipole.t) (dt : R) (E1 E2 E3 E4 : vec3)
  (y : state2) : state2 :=
  let k1 := sscale dt (LO_rhs dipole E1 y) in
  let k2 := sscale dt (LO_rhs dipole E2 (sadd y (sdiv k1 2))) in
  let k3 := sscale dt (LO_rhs dipole E3 (sadd y (sdiv k2 2))) in
  let k4 := sscale dt (LO_rhs dipole E4 (sadd y k3)) in
  sadd y (sscale (1 / 6)
                 (sadd (sadd (sadd k1 (sscale 2 k2)) (sscale 2 k3)) k4)).

(** The step with the forcing evaluated at the time of each stage: [t],
    [t + dt/2] (twice) and [t + dt]. *)
Definition rk4_stage_forcing {C : Collaborators} (hp : Heap) (sim : Simulation)
  (t_step : nat) (d : dref) : result state2 :=
  let dipole := dipole_at hp d in
  y0 <- col (Dipole.moment_disp dipole) t_step ;;
  y1 <- col (Dipole.moment_vel dipole) t_step ;;
  dt <- get_dt sim ;;
  let t := INR t_step * dt in
  E1 <- _E_driving hp sim t d false ;;
  E2 <- _E_driving hp sim (t + dt / 2) d false ;;
  E4 <- _E_driving hp sim (t + dt) d false ;;
  Ok (rk4_forced dipole dt E1 E2 E2 E4 (y0, y1)).

(** The step with the forcing evaluated once, at the timestep's own time and
    origin, and held over the four stages. *)
Definition rk4_constant_forcing {C : Collaborators} (hp : Heap) (sim : Simulation)
  (t_step : nat) (d : dref) : result state2 :=
  let dipole := dipole_at hp d in
  y0 <- col (Dipole.moment_disp dipole) t_step ;;
  y1 <- col (Dipole.moment_vel dipole) t_step ;;
  dt <- get_dt sim ;;
  let t := INR t_step * dt in
  E1 <- _E_driving hp sim t d false ;;
  Ok (rk4_forced dipole dt E1 E1 E1 E1 (y0, y1)).

(** ** The dipole's own methods *)

(** [a[:, i] = v] for a column the array has. *)
Fixpoint set_col (a : list vec3) (i : nat) (v : vec3) : list vec3 :=
  match a, i with
  | [], _ => []
  | _ :: rest, O => v :: rest
  | u :: rest, S k => u :: set_col rest k v
  end.

(** A fresh array of [n] columns that keeps the initial column. *)
Definition realloc (n : nat) (a : list vec3) : list vec3 :=
  match n with
  | O => []
  | S k => hd (0, 0, 0) a :: repeat (0, 0, 0) k
  end.

Definition with_velocity (ch : Charge.t) (vel : list vec3) : Charge.t :=
  {| Charge.q := Charge.q ch;
     Charge.xpos := Charge.xpos ch; Charge.ypos := Charge.ypos ch;
     Charge.zpos := Charge.zpos ch;
     Charge.xvel := Charge.xvel ch; Charge.yvel := Charge.yvel ch;
     Charge.zvel := Charge.zvel ch;
     Charge.xacc := Charge.xacc ch; Charge.yacc := Charge.yacc ch;
     Charge.zacc := Charge.zacc ch;
     Charge.velocity := vel |}.

Definition with_moments (dp : Dipole.t) (disp vel acc : list vec3)
  (tot evel eacc : list vec3) (i : nat) : Dipole.t :=
  {| Dipole.charge_pair := Dipole.charge_pair dp;
     Dipole.q := Dipole.q dp;
     Dipole.m_eff := Dipole.m_eff dp;
     Dipole.gamma_0 := Dipole.gamma_0 dp;
     Dipole.omega_0 := Dipole.omega_0 dp;
     Dipole.polar_dir := Dipole.polar_dir dp;
     Dipole.origin := Dipole.origin dp;
     Dipole.moment_disp := disp;
     Dipole.moment_vel := vel;
     Dipole.moment_acc := acc;
     Dipole.E_total := tot;
     Dipole.E_vel := evel;
     Dipole.E_acc := eacc;
     Dipole.t_index := i |}.

(** Modelled from the spec: the part of [Dipole.reset] that [Simulation]
    depends on, for a dipole whose origin moves with the constant velocity
    [V].  The per-timestep arrays are allocated anew with [timesteps] columns
    and keep the initial conditions in column 0; the member charges' velocity
    arrays start from the origin's velocity plus and minus half the moment's
    velocity along the polarization. *)
Definition spec_reset (V : vec3) (hp : Heap) (d : dref) (timesteps : Z)
  (dt : R) (save_E : bool) : Heap :=
  let dp := dipole_at hp d in
  let n := Z.to_nat timesteps in
  let field_cols := if save_E then repeat (0, 0, 0) n else [] in
  let vel0 := hd (0, 0, 0) (Dipole.moment_vel dp) in
  let half := vmul (Dipole.polar_dir dp) (vdiv vel0 2) in
  let c0 := fst (Dipole.charge_pair dp) in
  let c1 := snd (Dipole.charge_pair dp) in
  let hp1 :=
    upd_dipole hp d
      (with_moments dp (realloc n (Dipole.moment_disp dp))
                    (realloc n (Dipole.moment_vel dp))
                    (realloc n (Dipole.moment_acc dp))
                    field_cols field_cols field_cols 0) in
  let hp2 :=
    upd_charge hp1 c0
      (with_velocity (charge_at hp1 c0) (realloc n [vadd V half])) in
  upd_charge hp2 c1 (with_velocity (charge_at hp2 c1) (realloc n [vsub V half])).

(** Modelled from the spec: the part of [Dipole.update_timestep] that
    [Simulation] depends on, for a dipole whose origin moves with the constant
    velocity [V].  The next column of the moment arrays (and of the driving
    field arrays when a driving field is handed over) is written, and the
    member charges' velocities at that column are the origin's velocity plus
    and minus half the moment's velocity along the polarization. *)
Definition spec_update_timestep (V : vec3) (hp : Heap) (d : dref)
  (moment_disp moment_vel moment_acc : vec3)
  (E_driving : option (vec3 * vec3 * vec3)) : Heap :=
  let dp := dipole_at hp d in
  let i := S (Dipole.t_index dp) in
  let half := vmul (Dipole.polar_dir dp) (vdiv moment_vel 2) in
  let c0 := fst (Dipole.charge_pair dp) in
  let c1 := snd (Dipole.charge_pair dp) in
  let hp1 :=
    upd_dipole hp d
      (with_moments dp
         (set_col (Dipole.moment_disp dp) i moment_disp)
         (set_col (Dipole.moment_vel dp) i moment_vel)
         (set_col (Dipole.moment_acc dp) i moment_acc)
         (match E_driving with
          | Some E => set_col (Dipole.E_total dp) i (fst (fst E))
          | None => Dipole.E_total dp
          end)
         (match E_driving with
          | Some E => set_col (Dipole.E_vel dp) i (snd (fst E))
          | None => Dipole.E_vel dp
          end)
         (match E_driving with
          | Some E => set_col (Dipole.E_acc dp) i (snd E)
          | None => Dipole.E_acc dp
          end)
         i) in
  let hp2 :=
    upd_charge hp1 c0
      (with_velocity (charge_at hp1 c0)
         (set_col (Charge.velocity (charge_at hp1 c0)) i (vadd V half))) in
  upd_charge hp2 c1
    (with_velocity (charge_at hp2 c1)
       (set_col (Charge.velocity (charge_at hp2 c1)) i (vsub V half))).

(** ** The membership invariant *)

(** The two member charges of the dipole [d] are objects of [all_charges]. *)
Definition pair_in_charges (hp : Heap) (sim : Simulation) (d : dref) : Prop :=
  In (fst (Dipole.charge_pair (dipole_at hp d))) (all_charges sim)
  /\ In (snd (Dipole.charge_pair (dipole_at hp d))) (all_charges sim).

Definition members_invariant (hp : Heap) (sim : Simulation) : Prop :=
  Forall (pair_in_charges hp sim) (dipoles sim).

(** Every dipole has in [hp'] the member charges it has in [hp]. *)
Definition same_pairs (hp hp' : Heap) : Prop :=
  forall d, Dipole.charge_pair (dipole_at hp' d)
            = Dipole.charge_pair (dipole_at hp d).

(** The dipole's own methods do not rebind [charge_pair]. *)
Definition keeps_pairs (C : Collaborators) : Prop :=
  (forall hp d timesteps dt save_E,
      same_pairs hp (reset hp d timesteps dt save_E))
  /\ (forall hp d disp vel acc E,
         same_pairs hp (update_timestep hp d disp vel acc E)).

(** Whether a run with these arguments ends in a successful [_load]. *)
Definition restored {C : Collaborators} (hp : Heap) (sim : Simulation)
  (timesteps : Z) (dt : R) (save_E : bool)
  (file : option (option (list Simulation))) : bool :=
  match _init_simulation hp sim timesteps dt save_E, file with
  | Ok (hp1, sim1), Some contents => snd (_load hp1 sim1 contents)
  | _, _ => false
  end.

(** ** Scenarios *)

Definition zero3 : vec3 := (0, 0, 0).

(** A charge at rest at the origin. *)
Definition still_charge (q0 : R) : Charge.t :=
  {| Charge.q := q0;
     Charge.xpos := fun _ => 0; Charge.ypos := fun _ => 0; Charge.zpos := fun _ => 0;
     Charge.xvel := fun _ => 0; Charge.yvel := fun _ => 0; Charge.zvel := fun _ => 0;
     Charge.xacc := fun _ => 0; Charge.yacc := fun _ => 0; Charge.zacc := fun _ => 0;
     Charge.velocity := [] |}.

(** A charge moving along [x] with constant velocity [v0], at the origin at
    time [0]. *)
Definition drifting_charge (q0 v0 : R) : Charge.t :=
  {| Charge.q := q0;
     Charge.xpos := fun t => v0 * t; Charge.ypos := fun _ => 0; Charge.zpos := fun _ => 0;
     Charge.xvel := fun _ => v0; Charge.yvel := fun _ => 0; Charge.zvel := fun _ => 0;
     Charge.xacc := fun _ => 0; Charge.yacc := fun _ => 0; Charge.zacc := fun _ => 0;
     Charge.velocity := [] |}.

(** A dipole at rest at the origin, polarized along [x], with the given member
    charges and per-timestep moments. *)
Definition x_dipole (pair : cref * cref) (disp vel : list vec3) : Dipole.t :=
  {| Dipole.charge_pair := pair;
     Dipole.q := 1;
     Dipole.m_eff := 1;
     Dipole.gamma_0 := 0;
     Dipole.omega_0 := 0;
     Dipole.polar_dir := (1, 0, 0);
     Dipole.origin := fun _ => zero3;
     Dipole.moment_disp := disp;
     Dipole.moment_vel := vel;
     Dipole.moment_acc := [];
     Dipole.E_total := [];
     Dipole.E_vel := [];
     Dipole.E_acc := [];
     Dipole.t_index := 0 |}.

(** A uniform external field of unit strength along [x]. *)
Definition uniform_field : ext_field :=
  fun Idx _ _ _ _ => (full 1, full 0, full 0).

(** An external field along [x] that grows linearly in time. *)
Definition ramp_field : ext_field :=
  fun Idx t _ _ _ => (full t, full 0, full 0).

(** A root finder that answers every call with the retarded time [tr0]. *)
Definition fixed_root (tr0 : R) (Idx : Type)
  (f : ndarray Idx -> ndarray Idx) (x0 : ndarray Idx) (tol : R)
  : result (ndarray Idx) := Ok (full tr0).


(** Collaborators for the scenarios: charges compare equal when their
    magnitudes do, and the dipole methods leave the heap alone. *)
Definition bench (tr0 : R) : Collaborators :=
  {| newton := fixed_root tr0;
     charge_eq := fun a b => float_eqb (Charge.q a) (Charge.q b);
     reset := fun hp _ _ _ _ => hp;
     update_timestep := fun hp _ _ _ _ _ => hp |}.

(** A heap of still charges of magnitude [1] and idle dipoles. *)
Definition still_heap : Heap :=
  {| charge_at := fun _ => still_charge 1;
     dipole_at := fun _ => x_dipole (0%nat, 1%nat) [] [] |}.

(** No charges, a uniform external field. *)
Definition field_only : Simulation :=
  __init__ still_heap (Sequence []) (Some uniform_field) None None.

(** One still charge, no external field. *)
Definition one_charge : Simulation :=
  __init__ still_heap (Single (SrcCharge 0%nat)) None None None.

(** One dipole at rest, its two charges, and an external field that grows in
    time; two timesteps of length 1. *)
Definition ramp_heap : Heap :=
  {| charge_at := fun _ => still_charge 1;
     dipole_at := fun _ => x_dipole (0%nat, 1%nat) [zero3; zero3] [zero3; zero3] |}.

Definition ramp_sim : Simulation :=
  with_run (__init__ ramp_heap (Single (SrcDipole 0%nat)) (Some ramp_field) None None)
           2 1 false.

(** Collaborators for a run with dipoles whose origin moves with the constant
    velocity [V]. *)
Definition drift (V : vec3) : Collaborators :=
  {| newton := fixed_root 0;
     charge_eq := fun a b => float_eqb (Charge.q a) (Charge.q b);
     reset := spec_reset V;
     update_timestep := spec_update_timestep V |}.

(** A dipole polarized along [x] with natural frequency 1 and no damping; its
    origin moves along [x] with speed 2; it starts from the moment 12/5 at
    rest.  Its charges are the objects 0 and 1. *)
Definition moving_dipole : Dipole.t :=
  {| Dipole.charge_pair := (0%nat, 1%nat);
     Dipole.q := 1;
     Dipole.m_eff := 1;
     Dipole.gamma_0 := 0;
     Dipole.omega_0 := 1;
     Dipole.polar_dir := (1, 0, 0);
     Dipole.origin := fun t => (2 * t, 0, 0);
     Dipole.moment_disp := [(12 / 5, 0, 0)];
     Dipole.moment_vel := [(0, 0, 0)];
     Dipole.moment_acc := [(0, 0, 0)];
     Dipole.E_total := [];
     Dipole.E_vel := [];
     Dipole.E_acc := [];
     Dipole.t_index := 0 |}.

Definition moving_heap : Heap :=
  {| charge_at := fun cr => still_charge (if Nat.eqb cr 0 then 1 else -1);
     dipole_at := fun _ => moving_dipole |}.

(** The simulation of the moving dipole alone, without external fields. *)
Definition moving_sim : Simulation :=
  __init__ moving_heap (Sequence [SrcDipole 0%nat]) None None None.

(** The run of the moving dipole over two timesteps of length 1: the origin's
    velocity, the heap after [_init_simulation], the simulation's attributes
    during the run, and the heap after the one step. *)
Definition V2 : vec3 := (2, 0, 0).
Definition hp1 : Heap := spec_reset V2 moving_heap 0%nat 2 1 false.
Definition sim1 : Simulation := with_run moving_sim 2 1 false.
Definition hp2 : Heap :=
  spec_update_timestep V2 hp1 0%nat (13 / 10, 0, 0) (-2, 0, 0)
    (vdiv (vsub (-2, 0, 0) (0, 0, 0)) 1) None.

(** A dipole polarized along [x] with the charge [q0], the effective mass
    [m0], the natural frequency 1e18 and the damping [gamma0]; its origin
    moves along [x] with speed 2; it starts from the moment 2.4e-18 at rest.
    Its charges are the objects 0 and 1. *)
Definition fast_dipole (q0 m0 gamma0 : R) : Dipole.t :=
  {| Dipole.charge_pair := (0%nat, 1%nat);
     Dipole.q := q0;
     Dipole.m_eff := m0;
     Dipole.gamma_0 := gamma0;
     Dipole.omega_0 := 1e18;
     Dipole.polar_dir := (1, 0, 0);
     Dipole.origin := fun t => (2 * t, 0, 0);
     Dipole.moment_disp := [(2.4e-18, 0, 0)];
     Dipole.moment_vel := [(0, 0, 0)];
     Dipole.moment_acc := [(0, 0, 0)];
     Dipole.E_total := [];
     Dipole.E_vel := [];
     Dipole.E_acc := [];
     Dipole.t_index := 0 |}.

Definition fast_heap (q0 m0 gamma0 : R) : Heap :=
  {| charge_at := fun cr => still_charge (if Nat.eqb cr 0 then q0 else - q0);
     dipole_at := fun _ => fast_dipole q0 m0 gamma0 |}.

(** The simulation of the fast dipole alone, without external fields. *)
Definition fast_sim (q0 m0 gamma0 : R) : Simulation :=
  __init__ (fast_heap q0 m0 gamma0) (Sequence [SrcDipole 0%nat]) None None None.

(** A heap in which the dipole [d] has the member charges [2d] and [2d+1];
    all charges have magnitude 1.  The dipole 0 belongs to a simulation, the
    dipole 1 to a run of the same simulation stored in a file. *)
Definition twin_heap : Heap :=
  {| charge_at := fun _ => still_charge 1;
     dipole_at := fun d => x_dipole ((2 * d)%nat, (2 * d + 1)%nat) [zero3] [zero3] |}.

Definition twin_self : Simulation :=
  __init__ twin_heap (Single (SrcDipole 0%nat)) None None None.

Definition twin_stored : Simulation :=
  with_run (__init__ twin_heap (Single (SrcDipole 1%nat)) None None None)
           1 1 false.

From Stdlib Require Import Permutation.

(** ** Charges at rest *)

(** The charge stays at the point [p]: its position functions are constant and
    its velocity and acceleration functions vanish. *)
Definition stationary_at (ch : Charge.t) (p : vec3) : Prop :=
  forall t : R,
    Charge.xpos ch t = vx p /\ Charge.ypos ch t = vy p /\ Charge.zpos ch t = vz p
    /\ Charge.xvel ch t = 0 /\ Charge.yvel ch t = 0 /\ Charge.zvel ch t = 0
    /\ Charge.xacc ch t = 0 /\ Charge.yacc ch t = 0 /\ Charge.zacc ch t = 0.

(** The mesh position [i] as a point. *)
Definition point_at {Idx : Type} (x y z : ndarray Idx) (i : Idx) : vec3 :=
  (x i, y i, z i).

(** Coulomb's field of the charge [q0] at [p], observed at [X]. *)
Definition coulomb_E (q0 : R) (p X : vec3) : vec3 :=
  vscale (q0 / (4 * pi * eps) / norm (vsub X p) ^ 3) (vsub X p).

(** Coulomb's potential of the charge [q0] at [p], observed at [X]. *)
Definition coulomb_V (q0 : R) (p X : vec3) : R :=
  q0 / (4 * pi * eps * norm (vsub X p)).

(** The value of an optional external field at the mesh position [i]. *)
Definition ext_at {Idx : Type} (ext : option ext_field) (t : R)
  (x y z : ndarray Idx) (i : Idx) : vec3 :=
  match ext with
  | None => (0, 0, 0)
  | Some f => at_pos (f Idx t x y z) i
  end.

(** The sum of Coulomb's fields, and of Coulomb's potentials, of the charges
    [l], the charge [cr] sitting at [pos cr]. *)
Definition coulomb_E_sum (hp : Heap) (pos : cref -> vec3) (l : list cref)
  (X : vec3) : vec3 :=
  fold_right (fun cr acc => vadd (coulomb_E (Charge.q (charge_at hp cr)) (pos cr) X) acc)
             (0, 0, 0) l.

Definition coulomb_V_sum (hp : Heap) (pos : cref -> vec3) (l : list cref)
  (X : vec3) : R :=
  fold_right (fun cr acc => coulomb_V (Charge.q (charge_at hp cr)) (pos cr) X + acc)
             0 l.

(** ** Reading [__init__] *)

(** The charges and the dipoles one source contributes. *)
Definition source_charges (hp : Heap) (s : source) : list cref :=
  match s with
  | SrcCharge cr => [cr]
  | SrcDipole d =>
      [fst (Dipole.charge_pair (dipole_at hp d));
       snd (Dipole.charge_pair (dipole_at hp d))]
  end.

Definition source_dipoles (s : source) : list dref :=
  match s with
  | SrcCharge _ => []
  | SrcDipole d => [d]
  end.

(** ** The undriven oscillator *)

(** The oscillator's equation without forcing, [y' = L y]. *)
Definition LO_free (dipole : Dipole.t) (y : state2) : state2 :=
  LO_rhs dipole (0, 0, 0) y.

(** The Taylor polynomial of degree 4 in [dt] of the flow of [y' = L y]. *)
Definition taylor4 (dipole : Dipole.t) (dt : R) (y : state2) : state2 :=
  let L := LO_free dipole in
  sadd (sadd (sadd (sadd y (sscale dt (L y)))
                   (sscale (dt ^ 2 / 2) (L (L y))))
             (sscale (dt ^ 3 / 6) (L (L (L y)))))
       (sscale (dt ^ 4 / 24) (L (L (L (L y))))).



(** ** Save files *)

(** The files: what each file name holds, [None] when there is no such file.
    A file holds the pickled simulations in the order they were dumped. *)
Definition files : Type := string -> option (list Simulation).


(** [pickle.dump(s, f)] on a file opened with mode "ab": the file is created
    when it does not exist, and [s] goes to its end. *)
Definition dump (fs : files) (file : string) (s : Simulation) : files :=
  fun name =>
    if String.eqb name file then
      Some (match fs file with
            | Some entries => entries ++ [s]
            | None => [s]
            end)
    else fs name.

Definition _save (fs : files) (self : Simulation) (file : string) : files :=
  dump fs file self.


(** The [while True] loop of [get_file_length]: one [pickle.load] per stored
    simulation, until the end of the file. *)
Fixpoint count_loads (entries : list Simulation) (length : Z) : Z :=
  match entries with
  | [] => length
  | _ :: rest => count_loads rest (length + 1)
  end.

Definition get_file_length (fs : files) (file : string) : Z :=
  match fs file with
  | None => -1
  | Some entries => count_loads entries 0
  end.



(** What a file holds, nothing when there is no such file. *)
Definition entries_of (fs : files) (name : string) : list Simulation :=
  match fs name with
  | Some entries => entries
  | None => []
  end.


(** ** The example [examples/external_field.py] *)

Definition wavelength : R := 10e-9.

(** [E_field]: a sinusoidal plane wave along x,
    [[1e8*np.sin(2*np.pi/wavelength*(x-c*t)), 0, 0]]. *)
Definition plane_wave : ext_field :=
  fun Idx t x y z =>
    (full 1e8 [*] lift1 sin (full (2 * pi / wavelength) [*] (x [-] full (c * t))),
     full 0, full 0).

(** [pc.Simulation([], E_field)]: no charges in the simulation. *)
Definition plane_wave_simulation (hp : Heap) : Simulation :=
  __init__ hp (Sequence []) (Some plane_wave) None None.

(** [COMM_WORLD] of a run started with a single process; [bcast] never hands
    it anything. *)
Definition single_process : MPI_module :=
  {| Get_size := 1; Get_rank := 0; bcast_from := fun _ _ => [] |}.

(** ** The order of the charges *)

(** What one charge contributes to the loop of [calculate_E]: nothing when it
    is excluded, its field otherwise. *)
Definition E_contribution {C : Collaborators} {Idx : Type} (hp : Heap)
  (sim : Simulation) (t_array x y z : ndarray Idx) (pcharge_field : string)
  (exclude_charges : option (list cref)) (cr : cref)
  : result (option (field3 Idx)) :=
  if excluded hp cr exclude_charges then Ok None
  else
    tr <- retarded_time sim (charge_at hp cr) t_array x y z ;;
    match _calculate_individual_E (charge_at hp cr) tr x y z pcharge_field with
    | None => Raise TypeError
    | Some E => Ok (Some E)
    end.

Definition add_contribution {Idx : Type} (acc : field3 Idx)
  (contribution : option (field3 Idx)) : field3 Idx :=
  match contribution with
  | None => acc
  | Some E => field_add acc E
  end.

(** * Properties *)

(** ** Loops and arrays *)

Lemma bind_ok {A B : Type} (a : A) (k : A -> result B) : bind (Ok a) k = k a.
Proof. reflexivity. Qed.

Lemma field_eq_refl {Idx : Type} (F : field3 Idx) : field_eq F F.
Proof. repeat split; intros i; reflexivity. Qed.

Lemma field_eq_sym {Idx : Type} (F G : field3 Idx) : field_eq F G -> field_eq G F.
Proof.
  intros (H1 & H2 & H3); repeat split; intros i; symmetry; auto.
Qed.

Lemma field_eq_trans {Idx : Type} (F G K : field3 Idx) :
  field_eq F G -> field_eq G K -> field_eq F K.
Proof.
  intros (H1 & H2 & H3) (K1 & K2 & K3); repeat split; intros i;
    [rewrite H1 | rewrite H2 | rewrite H3]; auto.
Qed.

(** Pointwise goals on fields reduce to equations on reals. *)
Ltac pointwise :=
  unfold field_eq, arr_eq, field_add, zeros, ones in *;
  unfold lift2, lift1, full in *;
  cbn beta iota delta [fst snd] in *.

Lemma field_add_compat {Idx : Type} (F F' G G' : field3 Idx) :
  field_eq F F' -> field_eq G G' -> field_eq (field_add F G) (field_add F' G').
Proof.
  pointwise. intros (H1 & H2 & H3) (K1 & K2 & K3).
  repeat split; intros i; congruence.
Qed.

(** ** Constants and charges at rest *)

Lemma float_eqb_refl (a : R) : float_eqb a a = true.
Proof.
  unfold float_eqb. destruct (Req_dec_T a a) as [_|H]; [reflexivity|].
  exfalso; apply H; reflexivity.
Qed.

Lemma c_pos : 0 < c.
Proof. unfold c; lra. Qed.

Lemma eps_pos : 0 < eps.
Proof. unfold eps; lra. Qed.

Lemma pi_pos : 0 < pi.
Proof. exact PI_RGT_0. Qed.

Lemma individual_E_static {Idx : Type} (ch : Charge.t) (p : vec3)
  (tr x y z : ndarray Idx) (i : Idx) :
  stationary_at ch p ->
  norm (vsub (point_at x y z i) p) <> 0 ->
  exists E V A : field3 Idx,
    _calculate_individual_E ch tr x y z "Total" = Some E
    /\ _calculate_individual_E ch tr x y z "Velocity" = Some V
    /\ _calculate_individual_E ch tr x y z "Acceleration" = Some A
    /\ at_pos E i = coulomb_E (Charge.q ch) p (point_at x y z i)
    /\ at_pos V i = coulomb_E (Charge.q ch) p (point_at x y z i)
    /\ at_pos A i = (0, 0, 0).
Proof.
  intros Hst Hr.
  destruct (Hst (tr i)) as (Hx & Hy & Hz & Hvx & Hvy & Hvz & Hax & Hay & Haz).
  unfold _calculate_individual_E; cbn [String.eqb Ascii.eqb Bool.eqb].
  eexists; eexists; eexists.
  split; [reflexivity|]. split; [reflexivity|]. split; [reflexivity|].
  unfold at_pos, coulomb_E, point_at, vscale, vsub, norm, vx, vy, vz in *.
  unfold asqrt, lift2, lift1, full; cbn [fst snd] in *.
  rewrite Hx, Hy, Hz, Hvx, Hvy, Hvz, Hax, Hay, Haz.
  set (rx := x i - fst (fst p)) in *.
  set (ry := y i - snd (fst p)) in *.
  set (rz := z i - snd p) in *.
  set (s := sqrt (rx ^ 2 + ry ^ 2 + rz ^ 2)) in *.
  assert (Hs2 : s * s = rx ^ 2 + ry ^ 2 + rz ^ 2).
  { apply sqrt_sqrt. pose proof (pow2_ge_0 rx). pose proof (pow2_ge_0 ry).
    pose proof (pow2_ge_0 rz). lra. }
  clearbody s.
  pose proof c_pos as Hc. pose proof eps_pos as He. pose proof pi_pos as Hp.
  assert (Hdot : rx * (c * rx / s - 0) + ry * (c * ry / s - 0)
                 + rz * (c * rz / s - 0) = c * s).
  { replace (rx * (c * rx / s - 0) + ry * (c * ry / s - 0)
             + rz * (c * rz / s - 0))
      with (c * (rx ^ 2 + ry ^ 2 + rz ^ 2) / s) by (field; exact Hr).
    rewrite <- Hs2. field; exact Hr. }
  rewrite Hdot.
  replace (sqrt (0 ^ 2 + 0 ^ 2 + 0 ^ 2)) with 0
    by (replace (0 ^ 2 + 0 ^ 2 + 0 ^ 2) with 0 by ring; symmetry; apply sqrt_0).
  assert (Hc0 : c <> 0) by (apply Rgt_not_eq; exact Hc).
  assert (He0 : eps <> 0) by (apply Rgt_not_eq; exact He).
  assert (Hp0 : pi <> 0) by (apply Rgt_not_eq; exact Hp).
  repeat split; (apply injective_projections; [apply injective_projections|]);
    cbn [fst snd]; field; auto.
Qed.

Lemma vec3_ext (a b c0 a' b' c' : R) :
  a = a' -> b = b' -> c0 = c' -> (a, b, c0) = (a', b', c').
Proof. intros; subst; reflexivity. Qed.

Lemma still_charge_stationary (q0 : R) : stationary_at (still_charge q0) (0, 0, 0).
Proof. intros t. repeat split. Qed.

Lemma two_above_origin :
  norm (vsub (point_at (Idx := unit) (full 0) (full 2) (full 0) tt) (0, 0, 0)) <> 0.
Proof.
  unfold point_at, full, vsub, vx, vy, vz; cbn [fst snd].
  replace (0 - 0, 2 - 0, 0 - 0) with (0, 2, 0) by (apply vec3_ext; ring).
  unfold norm, vx, vy, vz; cbn [fst snd].
  replace (0 ^ 2 + 2 ^ 2 + 0 ^ 2) with (2 * 2) by ring.
  rewrite sqrt_square; lra.
Qed.

(** ** The three modes of [_calculate_individual_E] *)

Lemma individual_E_modes {Idx : Type} (ch : Charge.t) (tr x y z : ndarray Idx) :
  exists V A : field3 Idx,
    _calculate_individual_E ch tr x y z "Velocity" = Some V /\
    _calculate_individual_E ch tr x y z "Acceleration" = Some A /\
    _calculate_individual_E ch tr x y z "Total" = Some (field_add V A).
Proof.
  unfold _calculate_individual_E; cbn [String.eqb Ascii.eqb Bool.eqb].
  eexists; eexists; repeat split.
Qed.

Section Decomposition.
Context {C : Collaborators} {Idx : Type}.
Variables (hp : Heap) (sim : Simulation) (t_array x y z : ndarray Idx).
Variable exclude_charges : option (list cref).

Lemma E_loop_modes (l : list cref) :
  forall T V A : field3 Idx,
    field_eq T (field_add V A) ->
    modes_agree
      (for_each (E_body hp sim t_array x y z "Total" exclude_charges) l T)
      (for_each (E_body hp sim t_array x y z "Velocity" exclude_charges) l V)
      (for_each (E_body hp sim t_array x y z "Acceleration" exclude_charges) l A).
Proof.
  induction l as [|cr l IH]; intros T V A HT; cbn [for_each].
  - exact HT.
  - unfold E_body at 1 3 5.
    destruct (excluded hp cr exclude_charges); cbn [bind].
    + apply IH, HT.
    + destruct (retarded_time sim (charge_at hp cr) t_array x y z) as [tr|e];
        cbn [bind]; [|split; reflexivity].
      destruct (individual_E_modes (charge_at hp cr) tr x y z)
        as (V0 & A0 & HV & HA & HS).
      rewrite HV, HA, HS; cbn [bind].
      apply IH. revert HT. pointwise.
      intros (H1 & H2 & H3); repeat split; intros i;
        [rewrite H1 | rewrite H2 | rewrite H3]; ring.
Qed.

End Decomposition.

(** C1 (amended). The Velocity and Acceleration outputs of [calculate_E] add up
    to the Total output plus one more copy of the external field's value; for a
    simulation without external E-field they add up to the Total output.  The
    three calls raise together. *)
Theorem calculate_E_decomposition (C : Collaborators) (Idx : Type) (hp : Heap)
  (sim : Simulation) (t : R) (x y z : ndarray Idx)
  (exclude_charges : option (list cref)) :
  result_eq field_eq
    (sum_results (calculate_E hp sim t x y z "Velocity" exclude_charges)
                 (calculate_E hp sim t x y z "Acceleration" exclude_charges))
    (E <- calculate_E hp sim t x y z "Total" exclude_charges ;;
     Ok (add_external (E_field sim) t x y z E))
  /\
  (let bare := set_external sim None (B_field sim) (h sim) in
   result_eq field_eq
     (calculate_E hp bare t x y z "Total" exclude_charges)
     (sum_results (calculate_E hp bare t x y z "Velocity" exclude_charges)
                  (calculate_E hp bare t x y z "Acceleration" exclude_charges))).
Proof.
  split.
  - unfold calculate_E, sum_results.
    pose proof (E_loop_modes hp sim (full t) x y z exclude_charges
                  (all_charges sim) (zeros, zeros, zeros) (zeros, zeros, zeros)
                  (zeros, zeros, zeros)) as H.
    unfold modes_agree in H.
    destruct (for_each (E_body hp sim (full t) x y z "Total" exclude_charges) _ _)
      as [T|e1];
    destruct (for_each (E_body hp sim (full t) x y z "Velocity" exclude_charges) _ _)
      as [V|e2];
    destruct (for_each (E_body hp sim (full t) x y z "Acceleration" exclude_charges) _ _)
      as [A|e3]; cbn [bind result_eq];
      try (exfalso; apply H; pointwise; repeat split; intros i; ring).
    + assert (HT : field_eq T (field_add V A))
        by (apply H; pointwise; repeat split; intros i; ring).
      unfold add_external; destruct (E_field sim) as [f|].
      * revert HT; pointwise. intros (H1 & H2 & H3).
        repeat split; intros i; [rewrite H1 | rewrite H2 | rewrite H3]; ring.
      * apply field_eq_sym, HT.
    + destruct H as [H1 H2]; [|congruence].
      pointwise; repeat split; intros i; ring.
  - cbn zeta. unfold calculate_E, sum_results, set_external; cbn [E_field all_charges].
    pose proof (E_loop_modes hp (set_external sim None (B_field sim) (h sim))
                  (full t) x y z exclude_charges
                  (all_charges sim) (zeros, zeros, zeros) (zeros, zeros, zeros)
                  (zeros, zeros, zeros)) as H.
    unfold modes_agree, set_external in H.
    match goal with
    | |- context [for_each (E_body hp ?s _ _ _ _ "Total" _) _ _] => set (s0 := s) in *
    end.
    destruct (for_each (E_body hp s0 (full t) x y z "Total" exclude_charges) _ _)
      as [T|e1];
    destruct (for_each (E_body hp s0 (full t) x y z "Velocity" exclude_charges) _ _)
      as [V|e2];
    destruct (for_each (E_body hp s0 (full t) x y z "Acceleration" exclude_charges) _ _)
      as [A|e3]; cbn [bind result_eq add_external];
      try (exfalso; apply H; pointwise; repeat split; intros i; ring).
    + apply H; pointwise; repeat split; intros i; ring.
    + destruct H as [H1 H2]; [|congruence].
      pointwise; repeat split; intros i; ring.
Qed.

(** C1, as stated, fails with an external field: with no charges and a uniform
    external field of strength 1 the Total output is 1 along x, the sum of the
    Velocity and Acceleration outputs is 2. *)
Lemma decomposition_fails_with_external_field :
  ~ result_eq field_eq
      (calculate_E (C := bench 0) (Idx := unit) still_heap field_only 0
                   zeros zeros zeros "Total" None)
      (sum_results
         (calculate_E (C := bench 0) (Idx := unit) still_heap field_only 0
                      zeros zeros zeros "Velocity" None)
         (calculate_E (C := bench 0) (Idx := unit) still_heap field_only 0
                      zeros zeros zeros "Acceleration" None)).
Proof.
  cbn. pointwise. intros (H & _). specialize (H tt).
  unfold uniform_field, full in H; cbn [fst] in H. lra.
Qed.

(** ** Exclusion *)

Section Exclusion.
Context {C : Collaborators} {Idx : Type}.
Variables (hp : Heap) (sim : Simulation) (t_array x y z : ndarray Idx).
Variable pcharge_field : string.




End Exclusion.







(** ** Unrecognized mode selectors *)

Lemma not_recognized_eqb (pcharge_field : string) :
  ~ recognized pcharge_field ->
  String.eqb pcharge_field "Velocity" = false /\
  String.eqb pcharge_field "Acceleration" = false /\
  String.eqb pcharge_field "Total" = false.
Proof.
  unfold recognized; intros H; repeat split; apply String.eqb_neq; tauto.
Qed.

Lemma individual_E_some_iff {Idx : Type} (ch : Charge.t) (tr x y z : ndarray Idx)
  (pcharge_field : string) :
  recognized pcharge_field
  <-> _calculate_individual_E ch tr x y z pcharge_field <> None.
Proof.
  unfold _calculate_individual_E, recognized.
  destruct (String.eqb_spec pcharge_field "Velocity") as [->|H1].
  { split; [discriminate | auto]. }
  destruct (String.eqb_spec pcharge_field "Acceleration") as [->|H2].
  { split; [discriminate | auto]. }
  destruct (String.eqb_spec pcharge_field "Total") as [->|H3].
  { split; [discriminate | auto]. }
  split; [tauto | congruence].
Qed.

Section Unrecognized.
Context {C : Collaborators} {Idx : Type}.
Variables (hp : Heap) (sim : Simulation) (t_array x y z : ndarray Idx).
Variable pcharge_field : string.
Variable exclude_charges : option (list cref).
Hypothesis unknown : ~ recognized pcharge_field.

Lemma individual_E_unknown (ch : Charge.t) (tr : ndarray Idx) :
  _calculate_individual_E ch tr x y z pcharge_field = None.
Proof.
  destruct (_calculate_individual_E ch tr x y z pcharge_field) eqn:E; [|reflexivity].
  exfalso; apply unknown, (individual_E_some_iff ch tr x y z); congruence.
Qed.

Lemma E_loop_unknown (l : list cref) (acc : field3 Idx) :
  for_each (E_body hp sim t_array x y z pcharge_field exclude_charges) l acc
  = match first_included hp exclude_charges l with
    | None => Ok acc
    | Some cr =>
        tr <- retarded_time sim (charge_at hp cr) t_array x y z ;; Raise TypeError
    end.
Proof.
  induction l as [|cr l IH]; cbn [for_each first_included]; [reflexivity|].
  unfold E_body at 1.
  destruct (excluded hp cr exclude_charges); cbn [bind]; [exact IH|].
  destruct (retarded_time sim (charge_at hp cr) t_array x y z) as [tr|e];
    cbn [bind]; [|reflexivity].
  rewrite individual_E_unknown. reflexivity.
Qed.

Lemma B_loop_unknown (l : list cref) (acc : field3 Idx) :
  for_each (B_body hp sim t_array x y z pcharge_field exclude_charges) l acc
  = match first_included hp exclude_charges l with
    | None => Ok acc
    | Some cr =>
        tr <- retarded_time sim (charge_at hp cr) t_array x y z ;; Raise TypeError
    end.
Proof.
  induction l as [|cr l IH]; cbn [for_each first_included]; [reflexivity|].
  unfold B_body at 1.
  destruct (excluded hp cr exclude_charges); cbn [bind]; [exact IH|].
  destruct (retarded_time sim (charge_at hp cr) t_array x y z) as [tr|e];
    cbn [bind]; [|reflexivity].
  rewrite individual_E_unknown. reflexivity.
Qed.

End Unrecognized.

(** C10. [_calculate_individual_E] returns a field triple exactly for the
    selectors 'Velocity', 'Acceleration' and 'Total' and nothing otherwise; with
    any other selector [calculate_E] and [calculate_B] evaluate no mode: at the
    first charge that is not excluded they raise (the root finder's exception,
    or the [TypeError] of using the missing result), and when every charge is
    excluded they return the external field alone. *)
Theorem unrecognized_mode_has_no_default (C : Collaborators) (Idx : Type)
  (hp : Heap) (sim : Simulation) (t : R) (x y z : ndarray Idx)
  (pcharge_field : string) (exclude_charges : option (list cref))
  (ch : Charge.t) (tr : ndarray Idx) :
  (recognized pcharge_field
   <-> _calculate_individual_E ch tr x y z pcharge_field <> None)
  /\
  (~ recognized pcharge_field ->
   calculate_E hp sim t x y z pcharge_field exclude_charges
   = match first_included hp exclude_charges (all_charges sim) with
     | None => Ok (add_external (E_field sim) t x y z (zeros, zeros, zeros))
     | Some cr =>
         tr' <- retarded_time sim (charge_at hp cr) (full t) x y z ;;
         Raise TypeError
     end
   /\
   calculate_B hp sim t x y z pcharge_field exclude_charges
   = match first_included hp exclude_charges (all_charges sim) with
     | None => Ok (add_external (B_field sim) t x y z (zeros, zeros, zeros))
     | Some cr =>
         tr' <- retarded_time sim (charge_at hp cr) (full t) x y z ;;
         Raise TypeError
     end).
Proof.
  split; [apply individual_E_some_iff|].
  intros unknown. unfold calculate_E, calculate_B.
  rewrite (E_loop_unknown hp sim (full t) x y z pcharge_field exclude_charges unknown).
  rewrite (B_loop_unknown hp sim (full t) x y z pcharge_field exclude_charges unknown).
  destruct (first_included hp exclude_charges (all_charges sim)) as [cr|];
    cbn [bind]; [|split; reflexivity].
  destruct (retarded_time sim (charge_at hp cr) (full t) x y z); split; reflexivity.
Qed.

(** A query in the mode 'Bogus' on a simulation of one charge raises
    [TypeError], for the E-field and for the B-field. *)
Lemma bogus_mode_raises :
  ~ recognized "Bogus"
  /\ calculate_E (C := bench 0) (Idx := unit) still_heap one_charge 0
                 zeros zeros zeros "Bogus" None = Raise TypeError
  /\ calculate_B (C := bench 0) (Idx := unit) still_heap one_charge 0
                 zeros zeros zeros "Bogus" None = Raise TypeError.
Proof.
  assert (H : ~ recognized "Bogus")
    by (unfold recognized; intros [H|[H|H]]; discriminate H).
  split; [exact H|].
  exact (proj2 (unrecognized_mode_has_no_default (bench 0) unit still_heap
                  one_charge 0 zeros zeros zeros "Bogus" None (still_charge 1)
                  zeros) H).
Defined.

(** ** The call of the root finder *)

Lemma for_each_ext {A S : Type} (body1 body2 : S -> A -> result S) (l : list A) :
  (forall a s, In a l -> body1 s a = body2 s a) ->
  forall s, for_each body1 l s = for_each body2 l s.
Proof.
  induction l as [|a l IH]; intros Hb s; cbn [for_each]; [reflexivity|].
  rewrite (Hb a s (or_introl eq_refl)).
  destruct (body2 s a) as [s'|e]; cbn [bind]; [|reflexivity].
  apply IH. intros a' s'' Hin. apply Hb. right; exact Hin.
Qed.

Section SolverCalls.
Context (C : Collaborators) {Idx : Type}.
Variable N : forall Idx : Type,
    (ndarray Idx -> ndarray Idx) -> ndarray Idx -> R -> result (ndarray Idx).
Variables (hp : Heap) (sim : Simulation) (t_array x y z : ndarray Idx).
Variable exclude_charges : option (list cref).

(** The other root finder answers like [newton] on the calls made for the
    charges of the simulation that are not excluded. *)
Hypothesis same_answers :
  forall cr, In cr (all_charges sim) ->
             excluded hp cr exclude_charges = false ->
             let k := retarded_call sim (charge_at hp cr) t_array x y z in
             N Idx (func k) (x0 k) (tol k) = newton Idx (func k) (x0 k) (tol k).






End SolverCalls.




(** ** The magnetic field *)

Lemma B_of_E_cross {Idx : Type} (ch : Charge.t) (tr x y z : ndarray Idx)
  (E : field3 Idx) (i : Idx) :
  at_pos (B_of_E ch tr x y z E) i = B_cross ch tr x y z E i.
Proof.
  destruct E as [[Ex Ey] Ez].
  unfold B_of_E, B_cross, at_pos, r_at, vscale, cross, norm, vx, vy, vz, asqrt.
  unfold lift2, lift1, full. cbn [fst snd]. reflexivity.
Qed.

Lemma B_of_E_field {Idx : Type} (ch : Charge.t) (tr x y z : ndarray Idx)
  (E : field3 Idx) :
  field_eq (B_of_E ch tr x y z E) (B_cross_field ch tr x y z E).
Proof.
  unfold field_eq, arr_eq, B_cross_field; cbn [fst snd].
  repeat split; intros i; rewrite <- (B_of_E_cross ch tr x y z E i);
    unfold at_pos, vx, vy, vz; reflexivity.
Qed.

Section MagneticSum.
Context {C : Collaborators} {Idx : Type}.
Variables (hp : Heap) (sim : Simulation) (t_array x y z : ndarray Idx).
Variable pcharge_field : string.
Variable exclude_charges : option (list cref).

Lemma B_loop_sum (l : list cref) :
  forall acc acc' : field3 Idx,
    field_eq acc acc' ->
    result_eq field_eq
      (for_each (B_body hp sim t_array x y z pcharge_field exclude_charges) l acc)
      (S <- B_sum hp sim t_array x y z pcharge_field exclude_charges l ;;
       Ok (field_add acc' S)).
Proof.
  induction l as [|cr l IH]; intros acc acc' Hacc; cbn [for_each B_sum].
  - cbn [bind result_eq]. revert Hacc; pointwise.
    intros (H1 & H2 & H3); repeat split; intros i;
      [rewrite H1 | rewrite H2 | rewrite H3]; ring.
  - unfold B_body at 1.
    destruct (excluded hp cr exclude_charges); cbn [bind].
    + apply IH, Hacc.
    + destruct (retarded_time sim (charge_at hp cr) t_array x y z) as [tr|e];
        cbn [bind result_eq]; [|reflexivity].
      destruct (_calculate_individual_E (charge_at hp cr) tr x y z pcharge_field)
        as [E|]; cbn [bind result_eq]; [|reflexivity].
      specialize (IH (field_add acc (B_of_E (charge_at hp cr) tr x y z E))
                     (field_add acc' (B_cross_field (charge_at hp cr) tr x y z E))
                     (field_add_compat _ _ _ _ Hacc (B_of_E_field _ tr x y z E))).
      destruct (for_each _ l _) as [F|e1];
        destruct (B_sum hp sim t_array x y z pcharge_field exclude_charges l)
        as [S|e2]; cbn [bind result_eq] in *; try exact IH.
      revert IH; pointwise. intros (H1 & H2 & H3); repeat split; intros i;
        [rewrite H1 | rewrite H2 | rewrite H3]; ring.
Qed.

End MagneticSum.

(** C6 (amended). The field one charge adds in [calculate_B] is
    [(1/(c|r|)) (r x E)], with [r] the observation point minus the charge's
    retarded position (not its unit vector) and [E] the charge's own E-field in
    the selected mode; [calculate_B] returns the sum of these over the charges
    that are not excluded, plus the value of the external B-field callable when
    there is one. *)
Theorem calculate_B_cross_product (C : Collaborators) (Idx : Type) (hp : Heap)
  (sim : Simulation) (t : R) (x y z : ndarray Idx) (pcharge_field : string)
  (exclude_charges : option (list cref)) :
  (forall (ch : Charge.t) (tr : ndarray Idx) (E : field3 Idx) (i : Idx),
      at_pos (B_of_E ch tr x y z E) i = B_cross ch tr x y z E i)
  /\
  result_eq field_eq
    (calculate_B hp sim t x y z pcharge_field exclude_charges)
    (S <- B_sum hp sim (full t) x y z pcharge_field exclude_charges
                (all_charges sim) ;;
     Ok (add_external (B_field sim) t x y z S)).
Proof.
  split; [intros ch tr E i; apply B_of_E_cross|].
  unfold calculate_B.
  pose proof (B_loop_sum hp sim (full t) x y z pcharge_field exclude_charges
                (all_charges sim) (zeros, zeros, zeros) (zeros, zeros, zeros)
                (field_eq_refl _)) as H.
  destruct (for_each _ (all_charges sim) _) as [F|e1];
    destruct (B_sum hp sim (full t) x y z pcharge_field exclude_charges
                    (all_charges sim)) as [S|e2];
    cbn [bind result_eq] in *; try exact H.
  unfold add_external; destruct (B_field sim) as [f|].
  - revert H; pointwise. intros (H1 & H2 & H3); repeat split; intros i;
      [rewrite H1 | rewrite H2 | rewrite H3]; ring.
  - revert H; pointwise. intros (H1 & H2 & H3); repeat split; intros i;
      [rewrite H1 | rewrite H2 | rewrite H3]; ring.
Qed.

Lemma sqrt_020 : sqrt ((0 - 1 * 0) ^ 2 + (2 - 0) ^ 2 + (0 - 0) ^ 2) = 2.
Proof.
  replace ((0 - 1 * 0) ^ 2 + (2 - 0) ^ 2 + (0 - 0) ^ 2) with (2 * 2) by ring.
  apply sqrt_square; lra.
Qed.

Lemma sqrt_100 : sqrt (1 ^ 2 + 0 ^ 2 + 0 ^ 2) = 1.
Proof.
  replace (1 ^ 2 + 0 ^ 2 + 0 ^ 2) with 1 by ring. apply sqrt_1.
Qed.

(** C6, as stated, fails.  A unit charge drifts along x with speed 1 and
    passes the origin at time 0; it is observed at the point (0, 2, 0) at time
    [2/c], so that the retarded time is 0 and [|r| = 2].  The field the charge
    adds in [calculate_B] is twice [(1/(c|r|)) (r^ x E)]. *)
Lemma B_is_not_the_unit_vector_cross :
  exists E : field3 unit,
    Charge.solve_time (drifting_charge 1 1) (full 0) (full (2 / c))
                      (full 0) (full 2) (full 0) tt = 0
    /\ _calculate_individual_E (drifting_charge 1 1) (full 0)
                               (full 0) (full 2) (full 0) "Total" = Some E
    /\ at_pos (B_of_E (drifting_charge 1 1) (full 0) (full 0) (full 2) (full 0) E) tt
       <> B_unit_cross (drifting_charge 1 1) (full 0) (full 0) (full 2) (full 0) E tt.
Proof.
  pose proof c_pos as Hc. pose proof eps_pos as He. pose proof pi_pos as Hp.
  eexists; split; [|split].
  - unfold Charge.solve_time, asqrt, lift2, lift1, full.
    cbn [drifting_charge Charge.xpos Charge.ypos Charge.zpos].
    rewrite sqrt_020. field. apply Rgt_not_eq; exact Hc.
  - unfold _calculate_individual_E; cbn [String.eqb Ascii.eqb Bool.eqb].
    reflexivity.
  - unfold B_of_E, B_unit_cross, at_pos, r_at, unit_vec, vdiv, vscale, cross,
      norm, vx, vy, vz, asqrt.
    unfold lift2, lift1, full.
    cbn [fst snd drifting_charge Charge.xpos Charge.ypos Charge.zpos
         Charge.xvel Charge.yvel Charge.zvel Charge.xacc Charge.yacc
         Charge.zacc Charge.q].
    rewrite sqrt_020, sqrt_100. intros H. injection H as _ _ H3.
    match type of H3 with
    | _ * (_ - _ * ?e) = _ =>
        assert (Hx : e <> 0); [|apply Hx; unfold c in H3 |- *; lra]
    end.
    match goal with |- ?e <> 0 =>
      replace e with (- ((c ^ 2 - 1) / (16 * pi * eps * c ^ 3)))
        by (field; repeat split; apply Rgt_not_eq; assumption)
    end.
    apply Rlt_not_eq, Ropp_lt_gt_0_contravar, Rdiv_lt_0_compat.
    + unfold c; lra.
    + apply Rmult_lt_0_compat;
        [apply Rmult_lt_0_compat;
         [apply Rmult_lt_0_compat; [lra | exact Hp] | exact He]
        | apply pow_lt; exact Hc].
Qed.

(** ** Equality and restore *)

Lemma opt_eqb_refl {A : Type} (eqb : A -> A -> bool) (a : option A) :
  (forall v, eqb v v = true) -> opt_eqb eqb a a = true.
Proof. intros H; destruct a; cbn; auto. Qed.

Lemma charges_eqb_refl {C : Collaborators} (hp : Heap) (l : list cref) :
  charges_eqb hp l l = true.
Proof.
  induction l as [|a l IH]; cbn [charges_eqb]; [reflexivity|].
  rewrite Nat.eqb_refl, IH. reflexivity.
Qed.

Lemma eq_ignores_fields {C : Collaborators} (hp : Heap) (self other : Simulation)
  (E1 B1 E2 B2 : option ext_field) (h1 h2 : R) :
  __eq__ hp (set_external self E1 B1 h1) (PySimulation (set_external other E2 B2 h2))
  = __eq__ hp self (PySimulation other).
Proof. reflexivity. Qed.

Lemma scan_ignores_fields {C : Collaborators} (hp : Heap) (self : Simulation)
  (E1 B1 : option ext_field) (h1 : R)
  (E2 B2 : Simulation -> option ext_field) (h2 : Simulation -> R)
  (entries : list Simulation) :
  scan hp (set_external self E1 B1 h1)
       (map (fun s => set_external s (E2 s) (B2 s) (h2 s)) entries)
  = option_map (fun s => set_external s (E2 s) (B2 s) (h2 s))
               (scan hp self entries).
Proof.
  induction entries as [|s entries IH]; cbn [scan map option_map]; [reflexivity|].
  rewrite eq_ignores_fields.
  destruct (__eq__ hp self (PySimulation s)); [reflexivity | exact IH].
Qed.

Lemma float_eqb_eq (a b : R) : float_eqb a b = true <-> a = b.
Proof.
  unfold float_eqb. destruct (Req_dec_T a b) as [H|H]; split; intros H';
    try reflexivity; try assumption; try discriminate; contradiction.
Qed.

Lemma opt_eqb_eq {A : Type} (eqb : A -> A -> bool) (a b : option A) :
  (forall u v, eqb u v = true <-> u = v) ->
  opt_eqb eqb a b = true <-> a = b.
Proof.
  intros H. destruct a as [u|], b as [v|]; cbn [opt_eqb];
    try (split; [discriminate | congruence]); [|tauto].
  rewrite H. split; [intros ->; reflexivity | intros E; injection E; auto].
Qed.

Lemma charges_eqb_spec {C : Collaborators} (hp : Heap) (l1 l2 : list cref) :
  charges_eqb hp l1 l2 = true <-> Forall2 (same_or_equal hp) l1 l2.
Proof.
  revert l2; induction l1 as [|a l1 IH]; intros [|b l2]; cbn [charges_eqb].
  - split; [constructor | reflexivity].
  - split; [discriminate | intros H; inversion H].
  - split; [discriminate | intros H; inversion H].
  - rewrite andb_true_iff, orb_true_iff, Nat.eqb_eq, IH. unfold same_or_equal.
    split.
    + intros [H1 H2]. constructor; assumption.
    + intros H; inversion H; subst. split; assumption.
Qed.

Lemma eq_spec {C : Collaborators} (hp : Heap) (self other : Simulation) :
  __eq__ hp self (PySimulation other) = true
  <-> dt self = dt other
      /\ Forall2 (same_or_equal hp) (all_charges self) (all_charges other)
      /\ timesteps self = timesteps other.
Proof.
  unfold __eq__. rewrite !andb_true_iff.
  rewrite (opt_eqb_eq float_eqb _ _ float_eqb_eq).
  rewrite (opt_eqb_eq Z.eqb _ _ Z.eqb_eq).
  rewrite charges_eqb_spec. tauto.
Qed.

Lemma neq_gives_false (b : bool) (P : Prop) : (b = true <-> P) -> ~ P -> b = false.
Proof. intros H HP. destruct b; [exfalso; apply HP, H; reflexivity | reflexivity]. Qed.

(** C9. [__eq__] compares the class, [dt], [all_charges] and [timesteps] and
    nothing else.  Two simulations are equal exactly when their [dt] are
    equal, their [all_charges] have the same length and hold, position by
    position, the same object or objects that [Charge.__eq__] equates, and
    their [timesteps] are equal; a difference in [dt], in [timesteps] or in the
    number of charges makes them unequal, and no object of another class is
    equal to a simulation.  Changing the external E-field, the external
    B-field or the tolerance [h] on either side changes no comparison, a
    simulation equals every simulation that differs from it in these three
    only, and [_load] finds the same stored run and restores the same dipoles
    whatever the external fields and tolerances of the simulation and of the
    stored runs. *)
Theorem eq_compares_dt_charges_timesteps (C : Collaborators) (hp : Heap)
  (self other : Simulation) (E1 B1 E2 B2 : option ext_field) (h1 h2 : R)
  (E3 B3 : Simulation -> option ext_field) (h3 : Simulation -> R)
  (entries : list Simulation) :
  (__eq__ hp self (PySimulation other) = true
   <-> dt self = dt other
       /\ Forall2 (same_or_equal hp) (all_charges self) (all_charges other)
       /\ timesteps self = timesteps other)
  /\ (dt self <> dt other -> __eq__ hp self (PySimulation other) = false)
  /\ (timesteps self <> timesteps other ->
      __eq__ hp self (PySimulation other) = false)
  /\ (List.length (all_charges self) <> List.length (all_charges other) ->
      __eq__ hp self (PySimulation other) = false)
  /\ __eq__ hp (set_external self E1 B1 h1)
            (PySimulation (set_external other E2 B2 h2))
     = __eq__ hp self (PySimulation other)
  /\ __eq__ hp self (PySimulation (set_external self E1 B1 h1)) = true
  /\ __eq__ hp self PyOther = false
  /\ _load hp (set_external self E1 B1 h1)
           (Some (map (fun s => set_external s (E3 s) (B3 s) (h3 s)) entries))
     = _load hp self (Some entries)
  /\ _load hp self (Some (set_external self E1 B1 h1 :: entries))
     = (restore hp (combine (dipoles self) (dipoles self)), true).
Proof.
  assert (Hself : __eq__ hp self (PySimulation (set_external self E1 B1 h1))
                  = true).
  { unfold __eq__, set_external; cbn [dt all_charges timesteps].
    rewrite (opt_eqb_refl float_eqb (dt self) float_eqb_refl).
    rewrite charges_eqb_refl.
    rewrite (opt_eqb_refl Z.eqb (timesteps self) Z.eqb_refl). reflexivity. }
  split; [apply eq_spec|].
  split; [intros H; apply (neq_gives_false _ _ (eq_spec hp self other)); tauto|].
  split; [intros H; apply (neq_gives_false _ _ (eq_spec hp self other)); tauto|].
  split.
  { intros H. apply (neq_gives_false _ _ (eq_spec hp self other)).
    intros (_ & HF & _). apply H. eapply Forall2_length, HF. }
  split; [reflexivity|]. split; [exact Hself|]. split; [reflexivity|].
  split.
  - unfold _load. rewrite scan_ignores_fields.
    destruct (scan hp self entries) as [s|]; cbn [option_map]; reflexivity.
  - unfold _load; cbn [scan]. rewrite Hself. reflexivity.
Qed.

(** ** The forcing of the Runge-Kutta stages *)

Lemma rk4_unfolds_to_stage_forcing {C : Collaborators} (hp : Heap)
  (sim : Simulation) (t_step : nat) (d : dref) :
  _rk4 hp sim t_step d = rk4_stage_forcing hp sim t_step d.
Proof.
  unfold _rk4, rk4_stage_forcing, _LO_equation, rk4_forced.
  destruct (col (Dipole.moment_disp (dipole_at hp d)) t_step) as [y0|e];
    cbn [bind]; [|reflexivity].
  destruct (col (Dipole.moment_vel (dipole_at hp d)) t_step) as [y1|e];
    cbn [bind]; [|reflexivity].
  destruct (get_dt sim) as [dt|e]; cbn [bind]; [|reflexivity].
  destruct (_E_driving hp sim (INR t_step * dt) d false) as [E1|e];
    cbn [bind]; [|reflexivity].
  destruct (_E_driving hp sim (INR t_step * dt + dt / 2) d false) as [E2|e];
    cbn [bind]; [|reflexivity].
  destruct (_E_driving hp sim (INR t_step * dt + dt) d false) as [E4|e];
    cbn [bind]; reflexivity.
Qed.

(** C4 (amended). Within one RK4 step the forcing term does not depend on the
    intermediate state of a stage but it is evaluated anew at the time of each
    stage, with the dipole's origin at that time: at [t] for the first stage,
    at [t + dt/2] for the second and the third, which therefore share their
    forcing, and at [t + dt] for the fourth. *)
Theorem rk4_forcing_follows_stage_time (C : Collaborators) (hp : Heap)
  (sim : Simulation) (t_step : nat) (d : dref) (t : R) (y y' : state2) :
  _rk4 hp sim t_step d = rk4_stage_forcing hp sim t_step d
  /\ _LO_equation hp sim t y d
     = (E <- _E_driving hp sim t d false ;; Ok (LO_rhs (dipole_at hp d) E y))
  /\ _E_driving hp sim t d false
     = (let o := Dipole.origin (dipole_at hp d) t in
        let pair := Dipole.charge_pair (dipole_at hp d) in
        E <- calculate_E hp sim t (full (vx o)) (full (vy o)) (full (vz o))
                         "Total" (Some [fst pair; snd pair]) ;;
        Ok (vmul (Dipole.polar_dir (dipole_at hp d)) (flatten E))).
Proof.
  split; [apply rk4_unfolds_to_stage_forcing|].
  split; reflexivity.
Qed.

Lemma ramp_excluded (cr : cref) :
  excluded (C := bench 0) ramp_heap cr (Some [0%nat; 1%nat]) = true.
Proof.
  unfold excluded, py_in; cbn [existsb charge_eq bench ramp_heap charge_at].
  rewrite float_eqb_refl, orb_true_r. reflexivity.
Qed.

Lemma ramp_E_driving (t : R) :
  _E_driving (C := bench 0) ramp_heap ramp_sim t 0%nat false = Ok (t, 0, 0).
Proof.
  unfold _E_driving, calculate_E.
  cbn [ramp_heap dipole_at x_dipole Dipole.origin Dipole.charge_pair
       Dipole.polar_dir meshgrid fst snd ramp_sim with_run __init__ all_charges
       fold_left add_source app E_field for_each].
  unfold E_body. rewrite !ramp_excluded. cbn [bind add_external].
  unfold vmul, flatten, field_add, ramp_field, zeros, vx, vy, vz;
    unfold lift2, full; cbn [fst snd].
  f_equal. f_equal; [f_equal|]; ring.
Qed.

Lemma rk4_forced_steps (dipole : Dipole.t) (dt : R) (E1 E2 E3 E4 : vec3)
  (y k1 k2 k3 k4 : state2) :
  sscale dt (LO_rhs dipole E1 y) = k1 ->
  sscale dt (LO_rhs dipole E2 (sadd y (sdiv k1 2))) = k2 ->
  sscale dt (LO_rhs dipole E3 (sadd y (sdiv k2 2))) = k3 ->
  sscale dt (LO_rhs dipole E4 (sadd y k3)) = k4 ->
  rk4_forced dipole dt E1 E2 E3 E4 y
  = sadd y (sscale (1 / 6)
                   (sadd (sadd (sadd k1 (sscale 2 k2)) (sscale 2 k3)) k4)).
Proof. intros <- <- <- <-. reflexivity. Qed.

Lemma state2_ext (a b c d e f a' b' c' d' e' f' : R) :
  a = a' -> b = b' -> c = c' -> d = d' -> e = e' -> f = f' ->
  ((a, b, c), (d, e, f)) = ((a', b', c'), (d', e', f')).
Proof. intros; subst; reflexivity. Qed.

(** Equations between concrete states, component by component. *)
Ltac state_eq :=
  cbv beta iota zeta delta
    [LO_rhs sadd sscale sdiv vadd vsub vscale vdiv vmul zero3 vx vy vz fst snd
     Dipole.q Dipole.m_eff Dipole.gamma_0 Dipole.omega_0 Dipole.polar_dir
     x_dipole moving_dipole with_moments];
  apply state2_ext; lra.

(** C4, as stated, fails.  One dipole at rest sits in an external field that
    grows linearly in time; the timestep is 1.  The step of [_rk4] from
    timestep 0 uses the forcings 0, 1/2, 1/2 and 1 and moves the moment to 1/6
    with velocity 1/2; holding the forcing of the timestep's own time over the
    four stages would leave the moment at 0. *)
Lemma rk4_forcing_is_not_held_constant :
  _rk4 (C := bench 0) ramp_heap ramp_sim 0%nat 0%nat
  = Ok ((1 / 6, 0, 0), (1 / 2, 0, 0))
  /\ rk4_constant_forcing (C := bench 0) ramp_heap ramp_sim 0%nat 0%nat
     = Ok ((0, 0, 0), (0, 0, 0))
  /\ _rk4 (C := bench 0) ramp_heap ramp_sim 0%nat 0%nat
     <> rk4_constant_forcing (C := bench 0) ramp_heap ramp_sim 0%nat 0%nat.
Proof.
  assert (H1 : _rk4 (C := bench 0) ramp_heap ramp_sim 0%nat 0%nat
               = Ok ((1 / 6, 0, 0), (1 / 2, 0, 0))).
  { rewrite rk4_unfolds_to_stage_forcing. unfold rk4_stage_forcing.
    cbn [ramp_heap dipole_at x_dipole Dipole.moment_disp Dipole.moment_vel col
         nth_error bind get_dt ramp_sim with_run dt INR].
    rewrite !ramp_E_driving. cbn [bind].
    rewrite (rk4_forced_steps _ 1 _ _ _ _ _
               ((0, 0, 0), (0, 0, 0)) ((0, 0, 0), (1 / 2, 0, 0))
               ((1 / 4, 0, 0), (1 / 2, 0, 0)) ((1 / 2, 0, 0), (1, 0, 0)));
      [f_equal | | | | ]; state_eq. }
  assert (H2 : rk4_constant_forcing (C := bench 0) ramp_heap ramp_sim 0%nat 0%nat
               = Ok ((0, 0, 0), (0, 0, 0))).
  { unfold rk4_constant_forcing.
    cbn [ramp_heap dipole_at x_dipole Dipole.moment_disp Dipole.moment_vel col
         nth_error bind get_dt ramp_sim with_run dt INR].
    rewrite !ramp_E_driving. cbn [bind].
    rewrite (rk4_forced_steps _ 1 _ _ _ _ _
               ((0, 0, 0), (0, 0, 0)) ((0, 0, 0), (0, 0, 0))
               ((0, 0, 0), (0, 0, 0)) ((0, 0, 0), (0, 0, 0)));
      [f_equal | | | | ]; state_eq. }
  split; [exact H1|]. split; [exact H2|].
  rewrite H1, H2. intros H. injection H as H. lra.
Qed.

(** ** The velocity guard *)

Lemma for_each_app {A S : Type} (body : S -> A -> result S) (l1 l2 : list A)
  (s : S) :
  for_each body (l1 ++ l2) s = (s' <- for_each body l1 s ;; for_each body l2 s').
Proof.
  revert s; induction l1 as [|a l1 IH]; intros s; cbn [for_each app bind];
    [reflexivity|].
  destruct (body s a) as [s'|e]; cbn [bind]; [apply IH | reflexivity].
Qed.

(** Once a timestep raises, the loop over the timesteps raises: the later
    timesteps are not computed. *)
Lemma loop_stops_at_raise {A S : Type} (body : S -> A -> result S)
  (before after : list A) (a : A) (s s' : S) (e : exn) :
  for_each body before s = Ok s' ->
  body s' a = Raise e ->
  for_each body (before ++ a :: after) s = Raise e.
Proof.
  intros Hb Ha. rewrite for_each_app, Hb; cbn [bind for_each].
  rewrite Ha. reflexivity.
Qed.

(** What [_update_dipole] lets pass: the speed of [charge_pair[0]] at the new
    timestep is at most [max_vel]. *)
Lemma update_dipole_guard {C : Collaborators} (hp hp' : Heap) (sim : Simulation)
  (tstep : nat) (d : dref) (moment_disp moment_vel : vec3) (max_vel : R) :
  _update_dipole hp sim tstep d moment_disp moment_vel max_vel = Ok hp' ->
  exists v,
    col (Charge.velocity
           (charge_at hp' (fst (Dipole.charge_pair (dipole_at hp' d)))))
        (tstep + 1) = Ok v
    /\ norm v <= max_vel.
Proof.
  unfold _update_dipole.
  destruct (get_dt sim) as [dt0|e]; cbn [bind]; [|discriminate].
  destruct (col (Dipole.moment_vel (dipole_at hp d)) tstep) as [old|e];
    cbn [bind]; [|discriminate].
  match goal with
  | |- bind ?m _ = _ -> _ => destruct m as [E|e]; cbn [bind]; [|discriminate]
  end.
  match goal with
  | |- bind (col ?a ?i) _ = _ -> _ =>
      destruct (col a i) as [v|e] eqn:Hcol; cbn [bind]; [|discriminate]
  end.
  destruct (Rlt_dec max_vel (norm v)) as [Hlt|Hge]; [discriminate|].
  intros H; injection H as <-. exists v; split; [exact Hcol | lra].
Qed.

Lemma excluded_own_pair {C : Collaborators} (hp : Heap) (a b : cref) :
  excluded hp a (Some [a; b]) = true /\ excluded hp b (Some [a; b]) = true.
Proof.
  unfold excluded, py_in; cbn [existsb]. rewrite !Nat.eqb_refl. cbn [orb].
  split; [reflexivity | apply orb_true_r].
Qed.

(** A dipole alone in a simulation without external field is not driven. *)
Lemma lone_dipole_not_driven {C : Collaborators} (hp : Heap) (sim : Simulation)
  (t : R) (d : dref) :
  all_charges sim = [fst (Dipole.charge_pair (dipole_at hp d));
                     snd (Dipole.charge_pair (dipole_at hp d))] ->
  E_field sim = None ->
  _E_driving hp sim t d false
  = Ok (vmul (Dipole.polar_dir (dipole_at hp d)) (0, 0, 0)).
Proof.
  intros Hall Hext. unfold _E_driving, calculate_E.
  cbn [meshgrid]. rewrite Hall, Hext. cbn [for_each]. unfold E_body.
  destruct (excluded_own_pair hp (fst (Dipole.charge_pair (dipole_at hp d)))
                              (snd (Dipole.charge_pair (dipole_at hp d))))
    as [H0 H1].
  rewrite H0; cbn [bind]. rewrite H1; cbn [bind add_external]. reflexivity.
Qed.

(** Reading the heaps of the scenarios. *)
Ltac heap_eval :=
  cbv beta iota zeta delta
    [spec_reset spec_update_timestep upd_charge upd_dipole dipole_at charge_at
     moving_heap moving_dipole still_charge with_moments with_velocity realloc
     set_col hd repeat Z.to_nat Pos.to_nat Pos.iter_op Nat.add Nat.eqb fst snd
     Dipole.charge_pair Dipole.q Dipole.m_eff Dipole.gamma_0 Dipole.omega_0
     Dipole.polar_dir Dipole.origin Dipole.moment_disp Dipole.moment_vel
     Dipole.moment_acc Dipole.E_total Dipole.E_vel Dipole.E_acc Dipole.t_index
     Charge.velocity Charge.q col nth_error bind get_dt dt with_run moving_sim
     __init__ fold_left add_source app all_charges dipoles save_E timesteps
     E_field].

Lemma hp1_dipole :
  dipole_at hp1 0%nat
  = with_moments moving_dipole [(12 / 5, 0, 0); (0, 0, 0)]
      [(0, 0, 0); (0, 0, 0)] [(0, 0, 0); (0, 0, 0)] [] [] [] 0.
Proof. unfold hp1, V2. heap_eval. reflexivity. Qed.

Lemma moving_rk4 :
  _rk4 (C := drift V2) hp1 sim1 0%nat 0%nat = Ok ((13 / 10, 0, 0), (-2, 0, 0)).
Proof.
  rewrite rk4_unfolds_to_stage_forcing. unfold rk4_stage_forcing. cbv zeta.
  rewrite hp1_dipole.
  cbn [with_moments Dipole.moment_disp Dipole.moment_vel col nth_error bind
       get_dt sim1 with_run dt INR].
  repeat (rewrite lone_dipole_not_driven by reflexivity; cbn [bind]).
  rewrite hp1_dipole.
  rewrite (rk4_forced_steps _ 1 _ _ _ _ _
             ((0, 0, 0), (- (12 / 5), 0, 0))
             ((- (6 / 5), 0, 0), (- (12 / 5), 0, 0))
             ((- (6 / 5), 0, 0), (- (9 / 5), 0, 0))
             ((- (9 / 5), 0, 0), (- (6 / 5), 0, 0)));
    [f_equal | | | | ]; state_eq.
Qed.

Lemma hp2_pair : Dipole.charge_pair (dipole_at hp2 0%nat) = (0%nat, 1%nat).
Proof. unfold hp2, hp1, V2. heap_eval. reflexivity. Qed.

Lemma hp2_velocity0 :
  Charge.velocity (charge_at hp2 0%nat)
  = [vadd V2 (vmul (1, 0, 0) (vdiv (0, 0, 0) 2));
     vadd V2 (vmul (1, 0, 0) (vdiv (-2, 0, 0) 2))].
Proof. unfold hp2, hp1, V2. heap_eval. reflexivity. Qed.

Lemma norm_along_x (a b c0 : R) :
  0 <= a -> b = 0 -> c0 = 0 -> norm (a, b, c0) = a.
Proof.
  intros Ha -> ->. unfold norm, vx, vy, vz; cbn [fst snd].
  replace (a ^ 2 + 0 ^ 2 + 0 ^ 2) with (a * a) by ring.
  apply sqrt_square, Ha.
Qed.

Lemma speed_of_first_charge :
  norm (vadd V2 (vmul (1, 0, 0) (vdiv (-2, 0, 0) 2))) = 1.
Proof.
  cbv beta iota zeta delta [vadd vmul vdiv V2 vx vy vz fst snd].
  replace (2 + 1 * (-2 / 2)) with 1 by lra.
  apply norm_along_x; lra.
Qed.

Lemma moving_update (max_vel : R) :
  _update_dipole (C := drift V2) hp1 sim1 0%nat 0%nat (13 / 10, 0, 0)
                 (-2, 0, 0) max_vel
  = if Rlt_dec max_vel 1 then Raise ValueError else Ok hp2.
Proof.
  unfold _update_dipole.
  cbn [get_dt sim1 with_run dt bind save_E].
  rewrite hp1_dipole.
  cbn [with_moments Dipole.moment_vel col nth_error bind update_timestep drift].
  change (spec_update_timestep V2 hp1 0%nat (13 / 10, 0, 0) (-2, 0, 0)
            (vdiv (vsub (-2, 0, 0) (0, 0, 0)) 1) None) with hp2.
  rewrite hp2_pair. cbn [fst]. rewrite hp2_velocity0.
  cbn [col nth_error Nat.add bind].
  rewrite speed_of_first_charge. reflexivity.
Qed.

Lemma moving_run (max_vel : R) :
  run (C := drift V2) moving_heap moving_sim 2 1 None false (Some max_vel)
  = if Rlt_dec max_vel 1 then Raise ValueError
    else Ok {| heap_after := hp2; sim_after := sim1; saved := None |}.
Proof.
  unfold run.
  change (_init_simulation (C := drift V2) moving_heap moving_sim 2 1 false)
    with (Ok (A := Heap * Simulation) (hp1, sim1)).
  cbn [bind fst snd].
  change (tsteps sim1) with (Ok [0%nat]). cbn [bind for_each].
  change (dipoles sim1) with [0%nat].
  unfold run_step; cbn [for_each]. unfold step_dipole.
  rewrite moving_rk4; cbn [bind fst snd]. rewrite moving_update.
  destruct (Rlt_dec max_vel 1); reflexivity.
Qed.

Lemma fast_step_velocity (q0 m0 gamma0 : R) :
  0 <= gamma0 <= 1e14 ->
  forall y',
    y' = rk4_forced (fast_dipole q0 m0 gamma0) 1e-18 (vmul (1, 0, 0) (0, 0, 0))
           (vmul (1, 0, 0) (0, 0, 0)) (vmul (1, 0, 0) (0, 0, 0))
           (vmul (1, 0, 0) (0, 0, 0)) ((2.4e-18, 0, 0), (0, 0, 0)) ->
    vy (snd y') = 0 /\ vz (snd y') = 0 /\ -2 <= vx (snd y') <= -19 / 10.
Proof.
  intros Hg y' ->.
  cbv beta iota zeta delta
    [rk4_forced LO_rhs sadd sscale sdiv vadd vsub vscale vdiv vmul vx vy vz
     fst snd fast_dipole Dipole.q Dipole.m_eff Dipole.gamma_0 Dipole.omega_0].
  generalize (q0 / m0) as k; intros k.
  assert (Hw : 1e18 = / 1e-18) by lra.
  assert (Hd : 2.4e-18 = 12 / 5 * 1e-18) by lra.
  rewrite Hw, Hd.
  remember (gamma0 * 1e-18) as g eqn:Eg.
  assert (Hg' : 0 <= g <= 1e-4) by lra.
  assert (Hg0 : gamma0 = g * / 1e-18) by (rewrite Eg; field; lra).
  rewrite Hg0.
  assert (Ha : 1e-18 <> 0) by lra.
  revert Ha. generalize 1e-18 as a. intros a Ha.
  split; [field; exact Ha|]. split; [field; exact Ha|].
  match goal with
  | |- _ <= ?e <= _ =>
      replace e with (-2 + g - 2 / 5 * g ^ 2 + 1 / 10 * g ^ 3)
        by (field; exact Ha)
  end.
  nra.
Qed.

(** Reading the heaps of the fast dipole's run. *)
Ltac fast_eval :=
  cbv beta iota zeta delta
    [spec_reset spec_update_timestep upd_charge upd_dipole dipole_at charge_at
     fast_heap fast_dipole still_charge with_moments with_velocity realloc
     set_col hd repeat Z.to_nat Pos.to_nat Pos.iter_op Nat.add Nat.eqb fst snd
     Dipole.charge_pair Dipole.q Dipole.m_eff Dipole.gamma_0 Dipole.omega_0
     Dipole.polar_dir Dipole.origin Dipole.moment_disp Dipole.moment_vel
     Dipole.moment_acc Dipole.E_total Dipole.E_vel Dipole.E_acc Dipole.t_index
     Charge.velocity Charge.q col nth_error bind get_dt dt with_run fast_sim
     __init__ fold_left add_source app all_charges dipoles save_E timesteps
     E_field].

Section FastDipole.
Variables (V q0 m0 gamma0 : R).

(** The heap after [_init_simulation], the simulation's attributes during the
    run, the state the one step of [_rk4] returns, and the heap after that
    step. *)
Let hpF1 : Heap := spec_reset (V, 0, 0) (fast_heap q0 m0 gamma0) 0%nat 2 1e-18 false.
Let simF1 : Simulation := with_run (fast_sim q0 m0 gamma0) 2 1e-18 false.
Let yF : state2 :=
  rk4_forced (fast_dipole q0 m0 gamma0) 1e-18 (vmul (1, 0, 0) (0, 0, 0))
    (vmul (1, 0, 0) (0, 0, 0)) (vmul (1, 0, 0) (0, 0, 0))
    (vmul (1, 0, 0) (0, 0, 0)) ((2.4e-18, 0, 0), (0, 0, 0)).
Let hpF2 : Heap :=
  spec_update_timestep (V, 0, 0) hpF1 0%nat (fst yF) (snd yF)
    (vdiv (vsub (snd yF) (0, 0, 0)) 1e-18) None.

Lemma fast_hp1_dipole :
  dipole_at hpF1 0%nat
  = with_moments (fast_dipole q0 m0 gamma0) [(2.4e-18, 0, 0); (0, 0, 0)]
      [(0, 0, 0); (0, 0, 0)] [(0, 0, 0); (0, 0, 0)] [] [] [] 0.
Proof. unfold hpF1. fast_eval. reflexivity. Qed.

Lemma fast_rk4 :
  _rk4 (C := drift (V, 0, 0)) hpF1 simF1 0%nat 0%nat = Ok yF.
Proof.
  rewrite rk4_unfolds_to_stage_forcing. unfold rk4_stage_forcing. cbv zeta.
  rewrite fast_hp1_dipole.
  cbn [with_moments Dipole.moment_disp Dipole.moment_vel col nth_error bind
       get_dt simF1 with_run dt INR].
  repeat (rewrite lone_dipole_not_driven by reflexivity; cbn [bind]).
  rewrite fast_hp1_dipole. reflexivity.
Qed.

Lemma fast_hp2_pair : Dipole.charge_pair (dipole_at hpF2 0%nat) = (0%nat, 1%nat).
Proof. unfold hpF2, hpF1. fast_eval. reflexivity. Qed.

Lemma fast_hp2_velocity0 :
  Charge.velocity (charge_at hpF2 0%nat)
  = [vadd (V, 0, 0) (vmul (1, 0, 0) (vdiv (0, 0, 0) 2));
     vadd (V, 0, 0) (vmul (1, 0, 0) (vdiv (snd yF) 2))].
Proof. unfold hpF2, hpF1. fast_eval. reflexivity. Qed.

Lemma fast_hp2_velocity1 :
  Charge.velocity (charge_at hpF2 1%nat)
  = [vsub (V, 0, 0) (vmul (1, 0, 0) (vdiv (0, 0, 0) 2));
     vsub (V, 0, 0) (vmul (1, 0, 0) (vdiv (snd yF) 2))].
Proof. unfold hpF2, hpF1. fast_eval. reflexivity. Qed.

Lemma fast_update (max_vel : R) :
  _update_dipole (C := drift (V, 0, 0)) hpF1 simF1 0%nat 0%nat (fst yF) (snd yF)
                 max_vel
  = if Rlt_dec max_vel
         (norm (vadd (V, 0, 0) (vmul (1, 0, 0) (vdiv (snd yF) 2))))
    then Raise ValueError else Ok hpF2.
Proof.
  unfold _update_dipole.
  cbn [get_dt simF1 with_run dt bind save_E].
  rewrite fast_hp1_dipole.
  cbn [with_moments Dipole.moment_vel col nth_error bind update_timestep drift].
  change (spec_update_timestep (V, 0, 0) hpF1 0%nat (fst yF) (snd yF)
            (vdiv (vsub (snd yF) (0, 0, 0)) 1e-18) None) with hpF2.
  rewrite fast_hp2_pair. cbn [fst]. rewrite fast_hp2_velocity0.
  cbn [col nth_error Nat.add bind]. reflexivity.
Qed.

Lemma fast_run (max_vel : R) :
  run (C := drift (V, 0, 0)) (fast_heap q0 m0 gamma0) (fast_sim q0 m0 gamma0) 2 1e-18 None
      false (Some max_vel)
  = if Rlt_dec max_vel
         (norm (vadd (V, 0, 0) (vmul (1, 0, 0) (vdiv (snd yF) 2))))
    then Raise ValueError
    else Ok {| heap_after := hpF2; sim_after := simF1; saved := None |}.
Proof.
  unfold run.
  change (_init_simulation (C := drift (V, 0, 0)) (fast_heap q0 m0 gamma0)
            (fast_sim q0 m0 gamma0) 2 1e-18 false)
    with (Ok (A := Heap * Simulation) (hpF1, simF1)).
  cbn [bind fst snd].
  change (tsteps simF1) with (Ok [0%nat]). cbn [bind for_each].
  change (dipoles simF1) with [0%nat].
  unfold run_step; cbn [for_each]. unfold step_dipole.
  rewrite fast_rk4; cbn [bind]. rewrite fast_update.
  destruct (Rlt_dec max_vel _); reflexivity.
Qed.

Hypothesis HV : 19 / 10 <= V <= 21 / 10.
Hypothesis Hgamma : 0 <= gamma0 <= 1e14.

Lemma fast_speed_of_first_charge :
  9 / 10 <= norm (vadd (V, 0, 0) (vmul (1, 0, 0) (vdiv (snd yF) 2))) <= 23 / 20.
Proof.
  destruct (fast_step_velocity q0 m0 gamma0 Hgamma yF eq_refl) as (Hy & Hz & Hx).
  destruct (snd yF) as [[w1 w2] w3].
  unfold vx, vy, vz in Hy, Hz, Hx; cbn [fst snd] in Hy, Hz, Hx. subst w2 w3.
  cbv beta iota zeta delta [vadd vmul vdiv vx vy vz fst snd].
  rewrite (norm_along_x (V + 1 * (w1 / 2))) by lra. lra.
Qed.

Lemma fast_speed_of_second_charge :
  57 / 20 <= norm (vsub (V, 0, 0) (vmul (1, 0, 0) (vdiv (snd yF) 2))) <= 31 / 10.
Proof.
  destruct (fast_step_velocity q0 m0 gamma0 Hgamma yF eq_refl) as (Hy & Hz & Hx).
  destruct (snd yF) as [[w1 w2] w3].
  unfold vx, vy, vz in Hy, Hz, Hx; cbn [fst snd] in Hy, Hz, Hx. subst w2 w3.
  cbv beta iota zeta delta [vsub vmul vdiv vx vy vz fst snd].
  rewrite (norm_along_x (V - 1 * (w1 / 2))) by lra. lra.
Qed.

Lemma fast_run_passes :
  exists r v0 v1,
    run (C := drift (V, 0, 0)) (fast_heap q0 m0 gamma0) (fast_sim q0 m0 gamma0) 2 1e-18
        None false (Some 2) = Ok r
    /\ col (Charge.velocity
              (charge_at (heap_after r)
                 (fst (Dipole.charge_pair (dipole_at (heap_after r) 0%nat)))))
           1 = Ok v0
    /\ col (Charge.velocity
              (charge_at (heap_after r)
                 (snd (Dipole.charge_pair (dipole_at (heap_after r) 0%nat)))))
           1 = Ok v1
    /\ 9 / 10 <= norm v0 <= 23 / 20
    /\ 57 / 20 <= norm v1 <= 31 / 10
    /\ run (C := drift (V, 0, 0)) (fast_heap q0 m0 gamma0) (fast_sim q0 m0 gamma0) 2 1e-18
           None false (Some (1 / 2)) = Raise ValueError.
Proof.
  pose proof fast_speed_of_first_charge as H0.
  pose proof fast_speed_of_second_charge as H1.
  eexists; eexists; eexists.
  split.
  { rewrite fast_run. revert H0.
    generalize (norm (vadd (V, 0, 0) (vmul (1, 0, 0) (vdiv (snd yF) 2)))).
    intros n0 H0. destruct (Rlt_dec 2 n0) as [H|_]; [exfalso; lra | reflexivity]. }
  cbn [heap_after]. rewrite fast_hp2_pair. cbn [fst snd].
  rewrite fast_hp2_velocity0, fast_hp2_velocity1. cbn [col nth_error].
  split; [reflexivity|]. split; [reflexivity|].
  split; [exact H0|]. split; [exact H1|].
  rewrite fast_run. revert H0.
  generalize (norm (vadd (V, 0, 0) (vmul (1, 0, 0) (vdiv (snd yF) 2)))).
  intros n0 H0. destruct (Rlt_dec (1 / 2) n0) as [_|H]; [reflexivity | exfalso; lra].
Qed.

End FastDipole.

(** C2 (the code against the claim). A dipole of natural frequency 1e18 whose
    origin moves along x with speed 2 is run for two timesteps of length 1e-18
    with the ceiling [max_vel = 2].  Whatever the velocity [V] between 1.9 and
    2.1 that the dipole's own methods find for the origin, whatever its charge
    and effective mass, and whatever its damping between 0 and 1e14, at the
    new timestep [charge_pair[0]] has a speed between 0.9 and 1.15 and
    [charge_pair[1]] a speed between 2.85 and 3.1, above the ceiling; the run
    completes without an error, because the guard reads the velocity of
    [charge_pair[0]] only.  With a ceiling below the speed of [charge_pair[0]]
    the same run raises [ValueError]. *)
Theorem guard_reads_first_charge_only (V q0 m0 gamma0 : R) :
  19 / 10 <= V <= 21 / 10 ->
  0 <= gamma0 <= 1e14 ->
  exists r v0 v1,
    run (C := drift (V, 0, 0)) (fast_heap q0 m0 gamma0) (fast_sim q0 m0 gamma0) 2 1e-18
        None false (Some 2) = Ok r
    /\ col (Charge.velocity
              (charge_at (heap_after r)
                 (fst (Dipole.charge_pair (dipole_at (heap_after r) 0%nat)))))
           1 = Ok v0
    /\ col (Charge.velocity
              (charge_at (heap_after r)
                 (snd (Dipole.charge_pair (dipole_at (heap_after r) 0%nat)))))
           1 = Ok v1
    /\ 9 / 10 <= norm v0 <= 23 / 20
    /\ norm v0 <= 2
    /\ 57 / 20 <= norm v1 <= 31 / 10
    /\ 2 < norm v1
    /\ run (C := drift (V, 0, 0)) (fast_heap q0 m0 gamma0) (fast_sim q0 m0 gamma0) 2 1e-18
           None false (Some (1 / 2)) = Raise ValueError.
Proof.
  intros HV Hg.
  destruct (fast_run_passes V q0 m0 gamma0 HV Hg)
    as (r & v0 & v1 & Hrun & H0 & H1 & Hs0 & Hs1 & Hlow).
  exists r, v0, v1. repeat split; try assumption; lra.
Qed.

(** The run with the origin's velocity 2, unit charge and mass, and no
    damping. *)
Lemma fast_dipole_run_passes :
  exists r v0 v1,
    run (C := drift (2, 0, 0)) (fast_heap 1 1 0) (fast_sim 1 1 0) 2 1e-18
        None false (Some 2) = Ok r
    /\ col (Charge.velocity
              (charge_at (heap_after r)
                 (fst (Dipole.charge_pair (dipole_at (heap_after r) 0%nat)))))
           1 = Ok v0
    /\ col (Charge.velocity
              (charge_at (heap_after r)
                 (snd (Dipole.charge_pair (dipole_at (heap_after r) 0%nat)))))
           1 = Ok v1
    /\ norm v0 <= 2
    /\ 2 < norm v1.
Proof.
  assert (HV : 19 / 10 <= 2 <= 21 / 10) by lra.
  assert (Hg : 0 <= 0 <= 1e14) by lra.
  destruct (guard_reads_first_charge_only 2 1 1 0 HV Hg)
    as (r & v0 & v1 & Hrun & H0 & H1 & _ & Hs0 & _ & Hs1 & _).
  exists r, v0, v1. repeat split; assumption.
Defined.

(** ** [run_mpi] without [mpi4py] *)

(** C3 (the code against the claim). When the import of [mpi4py] fails,
    [run_mpi] raises no [NotImplementedError]: it first runs
    [_init_simulation] (and the restore from the file, when a file is given),
    returns normally when the restore succeeds, and otherwise fails with
    [UnboundLocalError] at the first use of [MPI]. *)
Theorem run_mpi_without_mpi4py (C : Collaborators) (hp : Heap) (sim : Simulation)
  (timesteps : Z) (dt : R) (file : option (option (list Simulation)))
  (save_E : bool) (max_vel : option R) :
  run_mpi None hp sim timesteps dt file save_E max_vel
  = ('(hp1, sim1) <- _init_simulation hp sim timesteps dt save_E ;;
     match file with
     | Some contents =>
         if snd (_load hp1 sim1 contents) then
           Ok {| heap_after := fst (_load hp1 sim1 contents);
                 sim_after := sim1;
                 saved := None |}
         else Raise UnboundLocalError
     | None => Raise UnboundLocalError
     end)
  /\ run_mpi None hp sim timesteps dt None false max_vel = Raise UnboundLocalError
  /\ run_mpi None hp sim timesteps dt file false max_vel
     <> Raise NotImplementedError.
Proof.
  unfold run_mpi. split; [|split].
  - destruct (_init_simulation hp sim timesteps dt save_E) as [[hp1' sim1']|e];
      cbn [bind]; [|reflexivity].
    destruct file as [contents|]; cbn [snd fst]; [|reflexivity].
    destruct (snd (_load hp1' sim1' contents)); reflexivity.
  - unfold _init_simulation; cbn [bind snd]. reflexivity.
  - unfold _init_simulation; cbn [bind].
    destruct file as [contents|]; cbn [snd fst]; [|discriminate].
    match goal with
    | |- (if ?b then _ else _) <> _ => destruct b; discriminate
    end.
Qed.

(** ** What a restore changes *)

Lemma restore_charges (hp : Heap) (pairs : list (dref * dref)) :
  charge_at (restore hp pairs) = charge_at hp.
Proof.
  unfold restore. revert hp.
  induction pairs as [|p pairs IH]; intros hp; cbn [fold_left]; [reflexivity|].
  rewrite IH. reflexivity.
Qed.

Lemma upd_dipole_same (hp : Heap) (d : dref) (v : Dipole.t) :
  dipole_at (upd_dipole hp d v) d = v.
Proof. unfold upd_dipole; cbn [dipole_at]. rewrite Nat.eqb_refl. reflexivity. Qed.

Lemma upd_dipole_other (hp : Heap) (d d0 : dref) (v : Dipole.t) :
  d0 <> d -> dipole_at (upd_dipole hp d v) d0 = dipole_at hp d0.
Proof.
  intros H. unfold upd_dipole; cbn [dipole_at].
  destruct (Nat.eqb_spec d0 d); [contradiction | reflexivity].
Qed.

Lemma restore_untouched (ds ds' : list dref) :
  forall (hp : Heap) (d : dref),
    ~ In d (firstn (List.length ds') ds) ->
    dipole_at (restore hp (combine ds ds')) d = dipole_at hp d.
Proof.
  unfold restore. revert ds'.
  induction ds as [|d0 ds IH]; intros ds' hp d Hd; [reflexivity|].
  destruct ds' as [|d0' ds']; [reflexivity|].
  cbn [combine fold_left fst snd List.length firstn] in *.
  rewrite IH.
  - apply upd_dipole_other. intros ->. apply Hd. left; reflexivity.
  - intros H. apply Hd. right; exact H.
Qed.

Lemma firstn_subset {A : Type} (n : nat) (l : list A) (a : A) :
  In a (firstn n l) -> In a l.
Proof.
  revert n; induction l as [|b l IH]; intros [|n]; cbn [firstn In]; try tauto.
  intros [H|H]; [left; exact H | right; eapply IH, H].
Qed.

(** ** Dipole charges in the flat charge list *)

Lemma add_source_grows (hp : Heap) (acc : list cref * list dref) (s : source)
  (cr : cref) :
  In cr (fst acc) -> In cr (fst (add_source hp acc s)).
Proof.
  intros H. destruct s as [cr'|d]; cbn [add_source fst].
  - apply in_or_app; left; exact H.
  - apply in_or_app; left. apply in_or_app; left; exact H.
Qed.

Lemma add_sources_members (hp : Heap) (l : list source) :
  forall acc : list cref * list dref,
    (forall d, In d (snd acc) ->
               In (fst (Dipole.charge_pair (dipole_at hp d))) (fst acc)
               /\ In (snd (Dipole.charge_pair (dipole_at hp d))) (fst acc)) ->
    forall d, In d (snd (fold_left (add_source hp) l acc)) ->
              In (fst (Dipole.charge_pair (dipole_at hp d)))
                 (fst (fold_left (add_source hp) l acc))
              /\ In (snd (Dipole.charge_pair (dipole_at hp d)))
                    (fst (fold_left (add_source hp) l acc)).
Proof.
  induction l as [|s l IH]; intros acc Hacc; cbn [fold_left]; [exact Hacc|].
  apply IH. intros d Hd.
  destruct s as [cr|d0]; cbn [add_source fst snd] in *.
  - destruct (Hacc d Hd) as [H1 H2].
    split; apply in_or_app; left; assumption.
  - apply in_app_or in Hd. destruct Hd as [Hd|[<-|[]]].
    + destruct (Hacc d Hd) as [H1 H2].
      split; apply in_or_app; left; apply in_or_app; left; assumption.
    + split.
      * apply in_or_app; left. apply in_or_app; right. left; reflexivity.
      * apply in_or_app; right. left; reflexivity.
Qed.

Lemma init_members (hp : Heap) (sources : sources_arg)
  (E B : option ext_field) (h0 : option R) :
  members_invariant hp (__init__ hp sources E B h0).
Proof.
  unfold members_invariant, pair_in_charges, __init__; cbn [dipoles all_charges].
  apply Forall_forall. intros d Hd.
  apply add_sources_members; [|exact Hd].
  intros d' [].
Qed.

Lemma same_pairs_refl (hp : Heap) : same_pairs hp hp.
Proof. intros d; reflexivity. Qed.

Lemma same_pairs_trans (hp hp' hp'' : Heap) :
  same_pairs hp hp' -> same_pairs hp' hp'' -> same_pairs hp hp''.
Proof. intros H1 H2 d. rewrite H2. apply H1. Qed.

Lemma members_transfer (hp hp' : Heap) (sim sim' : Simulation) :
  same_pairs hp hp' ->
  all_charges sim' = all_charges sim ->
  dipoles sim' = dipoles sim ->
  members_invariant hp sim -> members_invariant hp' sim'.
Proof.
  unfold members_invariant, pair_in_charges. intros Hp Hc Hd H.
  rewrite Hd, Hc. rewrite Forall_forall in *. intros d Hin.
  rewrite (Hp d). apply H, Hin.
Qed.

(** A loop whose body keeps the pairs keeps the pairs. *)
Lemma for_each_same_pairs {A : Type} (body : Heap -> A -> result Heap)
  (l : list A) :
  (forall hp hp' a, body hp a = Ok hp' -> same_pairs hp hp') ->
  forall hp hp', for_each body l hp = Ok hp' -> same_pairs hp hp'.
Proof.
  intros Hb. induction l as [|a l IH]; intros hp hp'; cbn [for_each].
  - intros H; injection H as <-. apply same_pairs_refl.
  - destruct (body hp a) as [hp0|e] eqn:E; cbn [bind]; [|discriminate].
    intros H. eapply same_pairs_trans; [eapply Hb, E | apply IH, H].
Qed.

Section Preservation.
Context {C : Collaborators}.
Hypothesis keeps : keeps_pairs C.

Lemma reset_all_same_pairs (timesteps : Z) (dt : R) (save_E : bool)
  (ds : list dref) :
  forall hp,
    same_pairs hp (fold_left (fun hp' d => reset hp' d timesteps dt save_E) ds hp).
Proof.
  induction ds as [|d ds IH]; intros hp; cbn [fold_left].
  - apply same_pairs_refl.
  - eapply same_pairs_trans; [apply (proj1 keeps) | apply IH].
Qed.

Lemma seed_same_pairs (sim : Simulation) (hp hp' : Heap) (d : dref) :
  seed_E_driving sim hp d = Ok hp' -> same_pairs hp hp'.
Proof.
  unfold seed_E_driving.
  destruct (_E_driving hp sim 0 d true) as [E|e]; cbn [bind]; [|discriminate].
  destruct (set_col0 _ _) as [tot|e]; cbn [bind]; [|discriminate].
  destruct (set_col0 _ _) as [vel|e]; cbn [bind]; [|discriminate].
  destruct (set_col0 _ _) as [acc|e]; cbn [bind]; [|discriminate].
  intros H; injection H as <-. intros d'.
  unfold upd_dipole; cbn [dipole_at].
  destruct (Nat.eqb_spec d' d) as [->|_]; reflexivity.
Qed.

Lemma init_simulation_keeps (hp hp1 : Heap) (sim sim1 : Simulation)
  (timesteps : Z) (dt : R) (save_E : bool) :
  _init_simulation hp sim timesteps dt save_E = Ok (hp1, sim1) ->
  same_pairs hp hp1 /\ sim1 = with_run sim timesteps dt save_E.
Proof.
  unfold _init_simulation. destruct save_E.
  - destruct (for_each _ _ _) as [hp2'|e] eqn:E; cbn [bind]; [|discriminate].
    intros H; injection H as <- <-. split; [|reflexivity].
    eapply same_pairs_trans; [apply reset_all_same_pairs|].
    eapply for_each_same_pairs; [|exact E].
    intros hp0 hp0' d. apply seed_same_pairs.
  - intros H; injection H as <- <-. split; [|reflexivity].
    apply reset_all_same_pairs.
Qed.

Lemma update_dipole_same_pairs (hp hp' : Heap) (sim : Simulation) (tstep : nat)
  (d : dref) (disp vel : vec3) (max_vel : R) :
  _update_dipole hp sim tstep d disp vel max_vel = Ok hp' -> same_pairs hp hp'.
Proof.
  unfold _update_dipole.
  destruct (get_dt sim) as [dt0|e]; cbn [bind]; [|discriminate].
  destruct (col (Dipole.moment_vel (dipole_at hp d)) tstep) as [old|e];
    cbn [bind]; [|discriminate].
  match goal with
  | |- bind ?m _ = _ -> _ => destruct m as [E|e]; cbn [bind]; [|discriminate]
  end.
  match goal with
  | |- bind (col ?a ?i) _ = _ -> _ =>
      destruct (col a i) as [v|e]; cbn [bind]; [|discriminate]
  end.
  destruct (Rlt_dec max_vel (norm v)); [discriminate|].
  intros H; injection H as <-. apply (proj2 keeps).
Qed.

Lemma step_dipole_same_pairs (sim : Simulation) (max_vel : R) (tstep : nat)
  (hp hp' : Heap) (d : dref) :
  step_dipole sim max_vel tstep hp d = Ok hp' -> same_pairs hp hp'.
Proof.
  unfold step_dipole.
  destruct (_rk4 hp sim tstep d) as [y|e]; cbn [bind]; [|discriminate].
  apply update_dipole_same_pairs.
Qed.

Lemma run_step_same_pairs (sim : Simulation) (max_vel : R) (ds : list dref)
  (hp hp' : Heap) (tstep : nat) :
  run_step sim max_vel ds hp tstep = Ok hp' -> same_pairs hp hp'.
Proof.
  unfold run_step. apply for_each_same_pairs.
  intros hp0 hp0' d. apply step_dipole_same_pairs.
Qed.

Lemma mpi_step_same_pairs (sim : Simulation) (max_vel : R) (MPI : MPI_module)
  (process_dipoles : list dref) (hp hp' : Heap) (tstep : nat) :
  mpi_step sim max_vel MPI process_dipoles hp tstep = Ok hp' ->
  same_pairs hp hp'.
Proof.
  unfold mpi_step.
  destruct (for_each (mpi_own_step sim max_vel tstep) process_dipoles hp)
    as [hp0|e] eqn:E; cbn [bind]; [|discriminate].
  intros H. eapply same_pairs_trans.
  - eapply for_each_same_pairs; [|exact E].
    intros hpa hpb d. apply step_dipole_same_pairs.
  - eapply for_each_same_pairs; [|exact H].
    intros hpa hpb bcast_rank. unfold mpi_receive.
    destruct (Nat.eqb (Get_rank MPI) bcast_rank).
    + intros H0; injection H0 as <-. apply same_pairs_refl.
    + apply for_each_same_pairs.
      intros hpc hpd p. apply update_dipole_same_pairs.
Qed.

Lemma run_keeps_members (hp : Heap) (sim : Simulation) (timesteps : Z) (dt : R)
  (file : option (option (list Simulation))) (save_E : bool)
  (max_vel : option R) (r : run_result) :
  run hp sim timesteps dt file save_E max_vel = Ok r ->
  restored hp sim timesteps dt save_E file = false ->
  members_invariant hp sim ->
  members_invariant (heap_after r) (sim_after r).
Proof.
  unfold run, restored.
  destruct (_init_simulation hp sim timesteps dt save_E) as [[hp1' sim1']|e]
    eqn:Einit; cbn [bind]; [|discriminate].
  destruct (init_simulation_keeps _ _ _ _ _ _ _ Einit) as [Hp ->].
  intros Hrun Hres Hinv.
  assert (Hload : snd (match file with
                       | Some contents =>
                           _load hp1' (with_run sim timesteps dt save_E) contents
                       | None => (hp1', false)
                       end) = false)
    by (destruct file; [exact Hres | reflexivity]).
  rewrite Hload in Hrun.
  assert (Hfst : fst (match file with
                      | Some contents =>
                          _load hp1' (with_run sim timesteps dt save_E) contents
                      | None => (hp1', false)
                      end) = hp1').
  { destruct file as [contents|]; [|reflexivity].
    cbn [snd] in Hload. unfold _load in *.
    destruct contents as [entries|]; [|reflexivity].
    destruct (scan hp1' (with_run sim timesteps dt save_E) entries);
      [discriminate Hload | reflexivity]. }
  rewrite Hfst in Hrun.
  destruct (tsteps (with_run sim timesteps dt save_E)) as [steps|e];
    cbn [bind] in Hrun; [|discriminate].
  destruct (for_each _ steps hp1') as [hp2'|e] eqn:Eloop; cbn [bind] in Hrun;
    [|discriminate].
  injection Hrun as <-. cbn [heap_after sim_after].
  apply (members_transfer hp hp2' sim); [|reflexivity|reflexivity|exact Hinv].
  eapply same_pairs_trans; [exact Hp|].
  eapply for_each_same_pairs; [|exact Eloop].
  intros hpa hpb tstep. apply run_step_same_pairs.
Qed.

Lemma run_mpi_keeps_members (mpi4py : option MPI_module) (hp : Heap)
  (sim : Simulation) (timesteps : Z) (dt : R)
  (file : option (option (list Simulation))) (save_E : bool)
  (max_vel : option R) (r : run_result) :
  run_mpi mpi4py hp sim timesteps dt file save_E max_vel = Ok r ->
  restored hp sim timesteps dt save_E file = false ->
  members_invariant hp sim ->
  members_invariant (heap_after r) (sim_after r).
Proof.
  unfold run_mpi, restored.
  destruct (_init_simulation hp sim timesteps dt save_E) as [[hp1' sim1']|e]
    eqn:Einit; cbn [bind]; [|discriminate].
  destruct (init_simulation_keeps _ _ _ _ _ _ _ Einit) as [Hp ->].
  intros Hrun Hres Hinv.
  assert (Hload : snd (match file with
                       | Some contents =>
                           _load hp1' (with_run sim timesteps dt save_E) contents
                       | None => (hp1', false)
                       end) = false)
    by (destruct file; [exact Hres | reflexivity]).
  rewrite Hload in Hrun.
  assert (Hfst : fst (match file with
                      | Some contents =>
                          _load hp1' (with_run sim timesteps dt save_E) contents
                      | None => (hp1', false)
                      end) = hp1').
  { destruct file as [contents|]; [|reflexivity].
    cbn [snd] in Hload. unfold _load in *.
    destruct contents as [entries|]; [|reflexivity].
    destruct (scan hp1' (with_run sim timesteps dt save_E) entries);
      [discriminate Hload | reflexivity]. }
  rewrite Hfst in Hrun.
  destruct mpi4py as [MPI|]; [|discriminate].
  destruct (Nat.eqb (Get_size MPI) 0); [discriminate|].
  destruct (tsteps (with_run sim timesteps dt save_E)) as [steps|e];
    cbn [bind] in Hrun; [|discriminate].
  destruct (for_each _ steps hp1') as [hp2'|e] eqn:Eloop; cbn [bind] in Hrun;
    [|discriminate].
  injection Hrun as <-. cbn [heap_after sim_after].
  apply (members_transfer hp hp2' sim); [|reflexivity|reflexivity|exact Hinv].
  eapply same_pairs_trans; [exact Hp|].
  eapply for_each_same_pairs; [|exact Eloop].
  intros hpa hpb tstep. apply mpi_step_same_pairs.
Qed.

End Preservation.

(** After construction from any mix of charges and dipoles the two member
    charges of every dipole are objects of [all_charges]; and, the dipole's
    own methods not rebinding [charge_pair], a run ([run] or [run_mpi]) that
    returns without a restore from a file keeps the membership. *)
Theorem dipole_charges_in_all_charges (C : Collaborators)
  (keeps : keeps_pairs C) (hp : Heap) (sources : sources_arg)
  (E B : option ext_field) (h0 : option R)
  (hp0 : Heap) (sim0 : Simulation) (timesteps : Z) (dt : R)
  (file : option (option (list Simulation))) (save_E : bool)
  (max_vel : option R) (mpi4py : option MPI_module) (r : run_result) :
  members_invariant hp (__init__ hp sources E B h0)
  /\ (members_invariant hp0 sim0 ->
      restored hp0 sim0 timesteps dt save_E file = false ->
      (run hp0 sim0 timesteps dt file save_E max_vel = Ok r ->
       members_invariant (heap_after r) (sim_after r))
      /\ (run_mpi mpi4py hp0 sim0 timesteps dt file save_E max_vel = Ok r ->
          members_invariant (heap_after r) (sim_after r))).
Proof.
  split; [apply init_members|].
  intros Hinv Hres. split; intros Hrun.
  - exact (run_keeps_members keeps _ _ _ _ _ _ _ _ Hrun Hres Hinv).
  - exact (run_mpi_keeps_members keeps _ _ _ _ _ _ _ _ _ Hrun Hres Hinv).
Qed.

Lemma spec_methods_keep_pairs (V : vec3) : keeps_pairs (drift V).
Proof.
  split.
  - intros hp d timesteps dt save_E d'. cbn [reset drift].
    unfold spec_reset; cbn [dipole_at upd_charge upd_dipole].
    destruct (Nat.eqb d' d) eqn:E; [|reflexivity].
    apply Nat.eqb_eq in E; subst d'. reflexivity.
  - intros hp d disp vel acc E d'. cbn [update_timestep drift].
    unfold spec_update_timestep; cbn [dipole_at upd_charge upd_dipole].
    destruct (Nat.eqb d' d) eqn:E'; [|reflexivity].
    apply Nat.eqb_eq in E'; subst d'. reflexivity.
Qed.

(** The moving dipole's charges are in [all_charges] after construction and
    after the run of two timesteps. *)
Lemma moving_dipole_charges_stay :
  keeps_pairs (drift V2)
  /\ members_invariant moving_heap moving_sim
  /\ members_invariant hp2 sim1.
Proof.
  pose proof (spec_methods_keep_pairs V2) as K.
  assert (Hrun : run (C := drift V2) moving_heap moving_sim 2 1 None false (Some 2)
                 = Ok {| heap_after := hp2; sim_after := sim1; saved := None |}).
  { rewrite moving_run. destruct (Rlt_dec 2 1) as [H|_]; [lra | reflexivity]. }
  pose proof (dipole_charges_in_all_charges (drift V2) K moving_heap
                (Sequence [SrcDipole 0%nat]) None None None
                moving_heap moving_sim 2 1 None false (Some 2) None
                {| heap_after := hp2; sim_after := sim1; saved := None |})
    as [Hinit Hkeep].
  split; [exact K|]. split; [exact Hinit|].
  exact (proj1 (Hkeep Hinit eq_refl) Hrun).
Defined.

Lemma restore_nth (ds ds' : list dref) :
  forall hp : Heap,
    NoDup ds ->
    (forall d', In d' ds' -> ~ In d' ds) ->
    forall k d d',
      nth_error ds k = Some d -> nth_error ds' k = Some d' ->
      dipole_at (restore hp (combine ds ds')) d = dipole_at hp d'.
Proof.
  revert ds'.
  induction ds as [|d0 ds IH]; intros ds' hp Hnd Hdis k d d' Hk Hk'.
  - destruct k; discriminate.
  - destruct ds' as [|d0' ds']; [destruct k; discriminate|].
    inversion Hnd as [|? ? Hnotin Hnd']; subst.
    unfold restore; cbn [combine fold_left fst snd].
    fold (restore (upd_dipole hp d0 (dipole_at hp d0')) (combine ds ds')).
    destruct k as [|k]; cbn [nth_error] in Hk, Hk'.
    + injection Hk as <-. injection Hk' as <-.
      rewrite restore_untouched.
      * apply upd_dipole_same.
      * intros H. apply Hnotin. eapply firstn_subset, H.
    + rewrite (IH ds' (upd_dipole hp d0 (dipole_at hp d0')) Hnd'
                 (fun x Hx Hin => Hdis x (or_intror Hx) (or_intror Hin))
                 k d d' Hk Hk').
      apply upd_dipole_other. intros ->.
      apply (Hdis d0 (or_intror (nth_error_In _ _ Hk'))). left; reflexivity.
Qed.

(** The field queries read the charges only, which a restore leaves as they
    are. *)
Lemma restore_keeps_E {C : Collaborators} {Idx : Type} (hp : Heap)
  (pairs : list (dref * dref)) (sim : Simulation) (t : R) (x y z : ndarray Idx)
  (pcharge_field : string) (exclude_charges : option (list cref)) :
  calculate_E (restore hp pairs) sim t x y z pcharge_field exclude_charges
  = calculate_E hp sim t x y z pcharge_field exclude_charges.
Proof.
  unfold calculate_E, E_body, excluded, py_in.
  rewrite restore_charges. reflexivity.
Qed.

Lemma init_simulation_sim {C : Collaborators} (hp hp1 : Heap)
  (sim sim1 : Simulation) (timesteps : Z) (dt : R) (save_E : bool) :
  _init_simulation hp sim timesteps dt save_E = Ok (hp1, sim1) ->
  sim1 = with_run sim timesteps dt save_E.
Proof.
  unfold _init_simulation. destruct save_E.
  - destruct (for_each _ _ _) as [hp2|e]; cbn [bind]; [|discriminate].
    intros H; injection H as _ <-. reflexivity.
  - intros H; injection H as _ <-. reflexivity.
Qed.

(** C8 (the code against the claim). Construction puts the two member charges
    of every dipole into [all_charges].  A run ([run] or [run_mpi]) with a file
    that holds an equal simulation ends in the restore of [_load], which hands
    each dipole the attributes of the stored dipole, its [charge_pair]
    included.  The unpickled member charges being new objects, the dipole's
    member charges are then no objects of [all_charges], which the run leaves
    as it was: the membership is lost, and the field queries, which loop over
    [all_charges], return after the restore what they return before it, from
    the charges that [_init_simulation] has just reset. *)
Theorem restore_breaks_membership (C : Collaborators) (hp : Heap)
  (sources : sources_arg) (E B : option ext_field) (h0 : option R)
  (hp0 hp1 : Heap) (sim sim1 loaded : Simulation) (timesteps : Z) (dt : R)
  (save_E : bool) (max_vel : option R) (mpi4py : option MPI_module)
  (entries : list Simulation) (k : nat) (d d' : dref) :
  _init_simulation hp0 sim timesteps dt save_E = Ok (hp1, sim1) ->
  scan hp1 sim1 entries = Some loaded ->
  NoDup (dipoles sim) ->
  (forall x, In x (dipoles loaded) -> ~ In x (dipoles sim)) ->
  nth_error (dipoles sim) k = Some d ->
  nth_error (dipoles loaded) k = Some d' ->
  ~ In (fst (Dipole.charge_pair (dipole_at hp1 d'))) (all_charges sim) ->
  members_invariant hp (__init__ hp sources E B h0)
  /\ exists r,
      run hp0 sim timesteps dt (Some (Some entries)) save_E max_vel = Ok r
      /\ run_mpi mpi4py hp0 sim timesteps dt (Some (Some entries)) save_E max_vel
         = Ok r
      /\ saved r = None
      /\ all_charges (sim_after r) = all_charges sim
      /\ dipoles (sim_after r) = dipoles sim
      /\ dipole_at (heap_after r) d = dipole_at hp1 d'
      /\ ~ pair_in_charges (heap_after r) (sim_after r) d
      /\ ~ members_invariant (heap_after r) (sim_after r)
      /\ forall (Idx : Type) (t : R) (x y z : ndarray Idx)
                (pcharge_field : string) (exclude_charges : option (list cref)),
          calculate_E (heap_after r) (sim_after r) t x y z pcharge_field
                      exclude_charges
          = calculate_E hp1 sim1 t x y z pcharge_field exclude_charges.
Proof.
  intros Hinit Hscan Hnd Hdis Hk Hk' Hnew.
  split; [apply init_members|].
  pose proof (init_simulation_sim _ _ _ _ _ _ _ Hinit) as Hsim1.
  assert (Hds : dipoles sim1 = dipoles sim) by (rewrite Hsim1; reflexivity).
  assert (Hcs : all_charges sim1 = all_charges sim) by (rewrite Hsim1; reflexivity).
  assert (Hload : _load hp1 sim1 (Some entries)
                  = (restore hp1 (combine (dipoles sim) (dipoles loaded)), true)).
  { unfold _load. rewrite Hscan, Hds. reflexivity. }
  assert (Hd : dipole_at (restore hp1 (combine (dipoles sim) (dipoles loaded))) d
               = dipole_at hp1 d').
  { exact (restore_nth _ _ hp1 Hnd Hdis k d d' Hk Hk'). }
  assert (Hpair : ~ pair_in_charges
                      (restore hp1 (combine (dipoles sim) (dipoles loaded)))
                      sim1 d).
  { unfold pair_in_charges. rewrite Hd, Hcs. intros [H _]. exact (Hnew H). }
  exists {| heap_after := restore hp1 (combine (dipoles sim) (dipoles loaded));
            sim_after := sim1;
            saved := None |}.
  cbn [heap_after sim_after saved].
  split; [|split; [|split; [|split; [|split; [|split; [|split; [|split]]]]]]].
  - unfold run. rewrite Hinit; cbn [bind]. rewrite Hload; cbn [snd fst].
    reflexivity.
  - unfold run_mpi. rewrite Hinit; cbn [bind]. rewrite Hload; cbn [snd fst].
    reflexivity.
  - reflexivity.
  - exact Hcs.
  - exact Hds.
  - exact Hd.
  - exact Hpair.
  - unfold members_invariant. rewrite Hds. intros HF.
    rewrite Forall_forall in HF. apply Hpair, HF.
    eapply nth_error_In, Hk.
  - intros Idx t x y z pcharge_field exclude_charges. apply restore_keeps_E.
Qed.

(** The simulation holds the dipole 0 with the member charges 0 and 1; the
    file holds a run of an equal simulation, whose dipole 1 has the member
    charges 2 and 3.  [run] with that file ends in the restore, after which
    the member charges of the dipole 0 are the objects 2 and 3, which are not
    in [all_charges]. *)
Lemma twin_run_breaks_membership :
  exists r,
    run (C := bench 0) twin_heap twin_self 1 1 (Some (Some [twin_stored]))
        false None = Ok r
    /\ all_charges (sim_after r) = [0%nat; 1%nat]
    /\ Dipole.charge_pair (dipole_at (heap_after r) 0%nat) = (2%nat, 3%nat)
    /\ ~ members_invariant (heap_after r) (sim_after r).
Proof.
  assert (Heq : __eq__ (C := bench 0) twin_heap (with_run twin_self 1 1 false)
                       (PySimulation twin_stored) = true).
  { unfold __eq__.
    cbn [twin_stored twin_self with_run __init__ dt timesteps all_charges
         fold_left add_source twin_heap dipole_at x_dipole Dipole.charge_pair
         fst snd app Nat.mul Nat.add opt_eqb charges_eqb charge_eq bench
         charge_at still_charge Charge.q Nat.eqb orb].
    rewrite !float_eqb_refl. reflexivity. }
  assert (Hscan : scan (C := bench 0) twin_heap (with_run twin_self 1 1 false)
                       [twin_stored] = Some twin_stored).
  { cbn [scan]. rewrite Heq. reflexivity. }
  assert (Hnd : NoDup (dipoles twin_self)).
  { change (NoDup [0%nat]). constructor; [intros [] | constructor]. }
  assert (Hdis : forall x, In x (dipoles twin_stored) -> ~ In x (dipoles twin_self)).
  { change (forall x, In x [1%nat] -> ~ In x [0%nat]).
    intros x [<-|[]] [H|[]]. discriminate H. }
  assert (Hnew : ~ In (fst (Dipole.charge_pair (dipole_at twin_heap 1%nat)))
                      (all_charges twin_self)).
  { change (~ In 2%nat [0%nat; 1%nat]). intros [H|[H|[]]]; discriminate H. }
  destruct (restore_breaks_membership (bench 0) twin_heap
              (Single (SrcDipole 0%nat)) None None None
              twin_heap twin_heap twin_self (with_run twin_self 1 1 false)
              twin_stored 1 1 false None None [twin_stored] 0%nat 0%nat 1%nat
              eq_refl Hscan Hnd Hdis eq_refl eq_refl Hnew)
    as (_ & r & Hrun & _ & _ & Hcs & _ & Hd & _ & Hinv & _).
  exists r. split; [exact Hrun|]. split; [exact Hcs|].
  split; [rewrite Hd; reflexivity | exact Hinv].
Defined.

(** * Further properties *)

(** ** The static limit *)

Section StaticLimit.
Context {C : Collaborators} {Idx : Type}.
Variables (hp : Heap) (sim : Simulation) (pos : cref -> vec3).
Variables (t_array x y z : ndarray Idx) (i : Idx).

Lemma E_loop_static (l : list cref) :
  (forall cr, In cr l -> stationary_at (charge_at hp cr) (pos cr)) ->
  (forall cr, In cr l -> norm (vsub (point_at x y z i) (pos cr)) <> 0) ->
  forall acc E : field3 Idx,
    for_each (E_body hp sim t_array x y z "Total" None) l acc = Ok E ->
    at_pos E i = vadd (at_pos acc i) (coulomb_E_sum hp pos l (point_at x y z i)).
Proof.
  induction l as [|cr l IH]; intros Hst Hr acc E; cbn [for_each coulomb_E_sum fold_right].
  - intros H; injection H as <-.
    unfold vadd, at_pos, vx, vy, vz; cbn [fst snd]. apply vec3_ext; ring.
  - unfold E_body at 1; cbn [excluded].
    destruct (retarded_time sim (charge_at hp cr) t_array x y z) as [tr|e];
      cbn [bind]; [|discriminate].
    destruct (individual_E_static (charge_at hp cr) (pos cr) tr x y z i
                (Hst cr (or_introl eq_refl)) (Hr cr (or_introl eq_refl)))
      as (E0 & V0 & A0 & HE & _ & _ & HE0 & _ & _).
    rewrite HE; cbn [bind]. intros Hloop.
    rewrite (IH (fun cr' H => Hst cr' (or_intror H))
                (fun cr' H => Hr cr' (or_intror H)) _ _ Hloop).
    fold (coulomb_E_sum hp pos l (point_at x y z i)).
    rewrite <- HE0.
    unfold vadd, at_pos, field_add, lift2, vx, vy, vz; cbn [fst snd].
    apply vec3_ext; ring.
Qed.

End StaticLimit.

Lemma add_external_at {Idx : Type} (ext : option ext_field) (t : R)
  (x y z : ndarray Idx) (F : field3 Idx) (i : Idx) :
  at_pos (add_external ext t x y z F) i = vadd (at_pos F i) (ext_at ext t x y z i).
Proof.
  unfold add_external, ext_at. destruct ext as [f|].
  - unfold at_pos, field_add, lift2, vadd, vx, vy, vz; cbn [fst snd]. reflexivity.
  - unfold at_pos, vadd, vx, vy, vz; cbn [fst snd]. apply vec3_ext; ring.
Qed.

(** X1. Static limit of the E-field.  When every charge of the simulation
    stays at a fixed point and [calculate_E] returns in the mode 'Total'
    without exclusion list, then at each mesh position that coincides with no
    charge the returned field is the sum of the charges' Coulomb fields
    [q/(4 pi eps |r|^3) r] plus the external field. *)
Theorem static_charges_coulomb_field (C : Collaborators) (Idx : Type) (hp : Heap)
  (sim : Simulation) (pos : cref -> vec3) (t : R) (x y z : ndarray Idx)
  (i : Idx) (E : field3 Idx) :
  (forall cr, In cr (all_charges sim) ->
              stationary_at (charge_at hp cr) (pos cr)) ->
  (forall cr, In cr (all_charges sim) ->
              norm (vsub (point_at x y z i) (pos cr)) <> 0) ->
  calculate_E hp sim t x y z "Total" None = Ok E ->
  at_pos E i
  = vadd (coulomb_E_sum hp pos (all_charges sim) (point_at x y z i))
         (ext_at (E_field sim) t x y z i).
Proof.
  intros Hst Hr. unfold calculate_E.
  destruct (for_each _ (all_charges sim) _) as [F|e] eqn:Hloop; cbn [bind];
    [|discriminate].
  intros H; injection H as <-.
  rewrite add_external_at.
  rewrite (E_loop_static hp sim pos (full t) x y z i (all_charges sim) Hst Hr _ _ Hloop).
  unfold at_pos, zeros, full, vadd, vx, vy, vz; cbn [fst snd].
  apply vec3_ext; ring.
Qed.

Lemma B_of_static {Idx : Type} (ch : Charge.t) (p : vec3)
  (tr x y z : ndarray Idx) (pcharge_field : string) (E : field3 Idx) (i : Idx) :
  stationary_at ch p ->
  _calculate_individual_E ch tr x y z pcharge_field = Some E ->
  at_pos (B_of_E ch tr x y z E) i = (0, 0, 0).
Proof.
  intros Hst.
  destruct (Hst (tr i)) as (Hx & Hy & Hz & Hvx & Hvy & Hvz & Hax & Hay & Haz).
  unfold _calculate_individual_E.
  destruct (String.eqb pcharge_field "Velocity");
    [|destruct (String.eqb pcharge_field "Acceleration");
      [|destruct (String.eqb pcharge_field "Total"); [|discriminate]]];
    intros H; injection H as <-;
    unfold B_of_E, at_pos, asqrt, lift2, lift1, full; cbn [fst snd];
    rewrite ?Hvx, ?Hvy, ?Hvz, ?Hax, ?Hay, ?Haz;
    apply vec3_ext; unfold Rdiv; ring.
Qed.

Section StaticLimitB.
Context {C : Collaborators} {Idx : Type}.
Variables (hp : Heap) (sim : Simulation) (pos : cref -> vec3).
Variables (t_array x y z : ndarray Idx) (i : Idx).
Variable pcharge_field : string.
Variable exclude_charges : option (list cref).

Lemma B_loop_static (l : list cref) :
  (forall cr, In cr l -> stationary_at (charge_at hp cr) (pos cr)) ->
  forall acc B : field3 Idx,
    for_each (B_body hp sim t_array x y z pcharge_field exclude_charges) l acc
    = Ok B ->
    at_pos B i = at_pos acc i.
Proof.
  induction l as [|cr l IH]; intros Hst acc B; cbn [for_each].
  - intros H; injection H as <-. reflexivity.
  - unfold B_body at 1.
    destruct (excluded hp cr exclude_charges); cbn [bind].
    + apply IH. intros cr' H; apply Hst; right; exact H.
    + destruct (retarded_time sim (charge_at hp cr) t_array x y z) as [tr|e];
        cbn [bind]; [|discriminate].
      destruct (_calculate_individual_E (charge_at hp cr) tr x y z pcharge_field)
        as [E|] eqn:HE; cbn [bind]; [|discriminate].
      intros Hloop.
      rewrite (IH (fun cr' H => Hst cr' (or_intror H)) _ _ Hloop).
      pose proof (B_of_static (charge_at hp cr) (pos cr) tr x y z pcharge_field
                    E i (Hst cr (or_introl eq_refl)) HE) as HB.
      unfold at_pos in *. unfold field_add, lift2; cbn [fst snd].
      injection HB as H1 H2 H3. rewrite H1, H2, H3.
      apply vec3_ext; ring.
Qed.

End StaticLimitB.

(** X2. Static limit of the B-field.  When every charge of the simulation
    stays at a fixed point and [calculate_B] returns, in whatever mode and with
    whatever exclusion list, then at each mesh position that coincides with no
    charge that is not excluded the returned field is the external B-field
    alone (zero without one): charges at rest add no magnetic field. *)
Theorem static_charges_no_magnetic_field (C : Collaborators) (Idx : Type)
  (hp : Heap) (sim : Simulation) (pos : cref -> vec3) (t : R)
  (x y z : ndarray Idx) (pcharge_field : string)
  (exclude_charges : option (list cref)) (i : Idx) (B : field3 Idx) :
  (forall cr, In cr (all_charges sim) ->
              stationary_at (charge_at hp cr) (pos cr)) ->
  (forall cr, In cr (all_charges sim) ->
              excluded hp cr exclude_charges = false ->
              norm (vsub (point_at x y z i) (pos cr)) <> 0) ->
  calculate_B hp sim t x y z pcharge_field exclude_charges = Ok B ->
  at_pos B i = ext_at (B_field sim) t x y z i.
Proof.
  intros Hst _. unfold calculate_B.
  destruct (for_each _ (all_charges sim) _) as [F|e] eqn:Hloop; cbn [bind];
    [|discriminate].
  intros H; injection H as <-.
  rewrite add_external_at.
  rewrite (B_loop_static hp sim pos (full t) x y z i pcharge_field
             exclude_charges (all_charges sim) Hst _ _ Hloop).
  destruct (ext_at (B_field sim) t x y z i) as [[b1 b2] b3].
  unfold at_pos, zeros, full, vadd, vx, vy, vz; cbn [fst snd].
  apply vec3_ext; ring.
Qed.

Lemma individual_V_static {Idx : Type} (ch : Charge.t) (p : vec3)
  (tr x y z : ndarray Idx) (i : Idx) :
  stationary_at ch p ->
  norm (vsub (point_at x y z i) p) <> 0 ->
  individual_V ch tr x y z i = coulomb_V (Charge.q ch) p (point_at x y z i).
Proof.
  intros Hst Hr.
  destruct (Hst (tr i)) as (Hx & Hy & Hz & Hvx & Hvy & Hvz & _).
  unfold individual_V, coulomb_V, point_at, vsub, norm, vx, vy, vz in *.
  unfold asqrt, lift2, lift1, full; cbn [fst snd] in *.
  rewrite Hx, Hy, Hz, Hvx, Hvy, Hvz.
  pose proof c_pos as Hc. pose proof eps_pos as He. pose proof pi_pos as Hp.
  field. repeat split; try (apply Rgt_not_eq; assumption). exact Hr.
Qed.

Section StaticLimitV.
Context {C : Collaborators} {Idx : Type}.
Variables (hp : Heap) (sim : Simulation) (pos : cref -> vec3).
Variables (t_array x y z : ndarray Idx) (i : Idx).

Lemma V_loop_static (l : list cref) :
  (forall cr, In cr l -> stationary_at (charge_at hp cr) (pos cr)) ->
  (forall cr, In cr l -> norm (vsub (point_at x y z i) (pos cr)) <> 0) ->
  forall acc V : ndarray Idx,
    for_each (V_body hp sim t_array x y z None) l acc = Ok V ->
    V i = acc i + coulomb_V_sum hp pos l (point_at x y z i).
Proof.
  induction l as [|cr l IH]; intros Hst Hr acc V;
    cbn [for_each coulomb_V_sum fold_right].
  - intros H; injection H as <-. ring.
  - unfold V_body at 1; cbn [excluded].
    destruct (retarded_time sim (charge_at hp cr) t_array x y z) as [tr|e];
      cbn [bind]; [|discriminate].
    intros Hloop.
    rewrite (IH (fun cr' H => Hst cr' (or_intror H))
                (fun cr' H => Hr cr' (or_intror H)) _ _ Hloop).
    fold (coulomb_V_sum hp pos l (point_at x y z i)).
    unfold lift2 at 1.
    rewrite (individual_V_static (charge_at hp cr) (pos cr) tr x y z i
               (Hst cr (or_introl eq_refl)) (Hr cr (or_introl eq_refl))).
    ring.
Qed.

Lemma A_loop_static (exclude_charges : option (list cref)) (l : list cref) :
  (forall cr, In cr l -> stationary_at (charge_at hp cr) (pos cr)) ->
  forall acc A : field3 Idx,
    for_each (A_body hp sim t_array x y z exclude_charges) l acc = Ok A ->
    at_pos A i = at_pos acc i.
Proof.
  induction l as [|cr l IH]; intros Hst acc A; cbn [for_each].
  - intros H; injection H as <-. reflexivity.
  - unfold A_body at 1.
    destruct (excluded hp cr exclude_charges); cbn [bind].
    + apply IH. intros cr' H; apply Hst; right; exact H.
    + destruct (retarded_time sim (charge_at hp cr) t_array x y z) as [tr|e];
        cbn [bind]; [|discriminate].
      intros Hloop.
      rewrite (IH (fun cr' H => Hst cr' (or_intror H)) _ _ Hloop).
      destruct (Hst cr (or_introl eq_refl) (tr i))
        as (_ & _ & _ & Hvx & Hvy & Hvz & _).
      unfold at_pos, field_add, lift2, lift1, full; cbn [fst snd].
      rewrite Hvx, Hvy, Hvz. apply vec3_ext; unfold Rdiv; ring.
Qed.

End StaticLimitV.

(** X3. Static limit of the potentials.  When every charge of the simulation
    stays at a fixed point, [calculate_V] returns, at each mesh position that
    coincides with no charge, the sum of the Coulomb potentials
    [q/(4 pi eps |r|)], and [calculate_A] returns the zero vector potential. *)
Theorem static_charges_coulomb_potential (C : Collaborators) (Idx : Type)
  (hp : Heap) (sim : Simulation) (pos : cref -> vec3) (t : R)
  (x y z : ndarray Idx) (exclude_charges : option (list cref)) (i : Idx)
  (V : ndarray Idx) (A : field3 Idx) :
  (forall cr, In cr (all_charges sim) ->
              stationary_at (charge_at hp cr) (pos cr)) ->
  (forall cr, In cr (all_charges sim) ->
              norm (vsub (point_at x y z i) (pos cr)) <> 0) ->
  (calculate_V hp sim t x y z None = Ok V ->
   V i = coulomb_V_sum hp pos (all_charges sim) (point_at x y z i))
  /\ (calculate_A hp sim t x y z exclude_charges = Ok A ->
      at_pos A i = (0, 0, 0)).
Proof.
  intros Hst Hr. split.
  - unfold calculate_V. intros Hloop.
    rewrite (V_loop_static hp sim pos (full t) x y z i (all_charges sim) Hst Hr
               _ _ Hloop).
    unfold zeros, full. ring.
  - unfold calculate_A. intros Hloop.
    rewrite (A_loop_static hp sim pos (full t) x y z i exclude_charges
               (all_charges sim) Hst _ _ Hloop).
    reflexivity.
Qed.

Lemma still_charge_field_is_coulomb :
  exists E : field3 unit,
    calculate_E (C := bench 0) still_heap one_charge 0 (full 0) (full 2) (full 0)
                "Total" None = Ok E
    /\ at_pos E tt
       = vadd (coulomb_E_sum still_heap (fun _ => (0, 0, 0)) [0%nat]
                 (point_at (full 0) (full 2) (full 0) tt))
              (0, 0, 0).
Proof.
  eexists. split; [reflexivity|].
  apply (static_charges_coulomb_field (bench 0) unit still_heap one_charge
           (fun _ => (0, 0, 0)) 0 (full 0) (full 2) (full 0) tt).
  - intros cr _. apply still_charge_stationary.
  - intros cr _. apply two_above_origin.
  - reflexivity.
Defined.

Lemma still_charge_has_no_magnetic_field :
  exists B : field3 unit,
    calculate_B (C := bench 0) still_heap one_charge 0 (full 0) (full 2) (full 0)
                "Total" None = Ok B
    /\ at_pos B tt = (0, 0, 0).
Proof.
  eexists. split; [reflexivity|].
  apply (static_charges_no_magnetic_field (bench 0) unit still_heap one_charge
           (fun _ => (0, 0, 0)) 0 (full 0) (full 2) (full 0) "Total" None tt).
  - intros cr _. apply still_charge_stationary.
  - intros cr _ _. apply two_above_origin.
  - reflexivity.
Defined.

Lemma still_charge_potential_is_coulomb :
  exists (V : ndarray unit) (A : field3 unit),
    calculate_V (C := bench 0) still_heap one_charge 0 (full 0) (full 2) (full 0)
                None = Ok V
    /\ calculate_A (C := bench 0) still_heap one_charge 0 (full 0) (full 2)
                   (full 0) None = Ok A
    /\ V tt = coulomb_V_sum still_heap (fun _ => (0, 0, 0)) [0%nat]
                (point_at (full 0) (full 2) (full 0) tt)
    /\ at_pos A tt = (0, 0, 0).
Proof.
  eexists. eexists. split; [reflexivity|]. split; [reflexivity|].
  pose proof (static_charges_coulomb_potential (bench 0) unit still_heap
                one_charge (fun _ => (0, 0, 0)) 0 (full 0) (full 2) (full 0)
                None tt) as H.
  split.
  - refine (proj1 (H _ _ _ _) eq_refl).
    + exact (zeros, zeros, zeros).
    + intros cr _. apply still_charge_stationary.
    + intros cr _. apply two_above_origin.
  - refine (proj2 (H _ _ _ _) eq_refl).
    + exact zeros.
    + intros cr _. apply still_charge_stationary.
    + intros cr _. apply two_above_origin.
Defined.

(** ** Superposition *)

Lemma result_eq_trans {A : Type} (eqv : A -> A -> Prop) (r1 r2 r3 : result A) :
  (forall a b c0, eqv a b -> eqv b c0 -> eqv a c0) ->
  result_eq eqv r1 r2 -> result_eq eqv r2 r3 -> result_eq eqv r1 r3.
Proof.
  intros Ht. destruct r1, r2, r3; cbn; try tauto.
  - apply Ht.
  - congruence.
Qed.

Lemma field_add_assoc {Idx : Type} (F G K : field3 Idx) :
  field_eq (field_add (field_add F G) K) (field_add F (field_add G K)).
Proof. pointwise. repeat split; intros i; ring. Qed.

Section Superposition.
Context {C : Collaborators} {Idx : Type}.
Variables (hp : Heap) (sim : Simulation) (t_array x y z : ndarray Idx).
Variable pcharge_field : string.
Variable exclude_charges : option (list cref).

Let body := E_body hp sim t_array x y z pcharge_field exclude_charges.

Lemma E_loop_compat (l : list cref) :
  forall acc acc' : field3 Idx,
    field_eq acc acc' ->
    result_eq field_eq (for_each body l acc) (for_each body l acc').
Proof.
  induction l as [|cr l IH]; intros acc acc' Hacc; cbn [for_each].
  - exact Hacc.
  - unfold body at 1 3, E_body.
    destruct (excluded hp cr exclude_charges); cbn [bind].
    + apply IH, Hacc.
    + destruct (retarded_time sim (charge_at hp cr) t_array x y z) as [tr|e];
        cbn [bind result_eq]; [|reflexivity].
      destruct (_calculate_individual_E (charge_at hp cr) tr x y z pcharge_field)
        as [E|]; cbn [bind result_eq]; [|reflexivity].
      apply IH, field_add_compat; [exact Hacc | apply field_eq_refl].
Qed.

Lemma E_loop_shift (l : list cref) :
  forall acc acc0 : field3 Idx,
    result_eq field_eq
      (for_each body l (field_add acc acc0))
      (F <- for_each body l acc0 ;; Ok (field_add acc F)).
Proof.
  induction l as [|cr l IH]; intros acc acc0; cbn [for_each].
  - cbn [bind result_eq]. apply field_eq_refl.
  - unfold body at 1 3, E_body.
    destruct (excluded hp cr exclude_charges); cbn [bind].
    + apply IH.
    + destruct (retarded_time sim (charge_at hp cr) t_array x y z) as [tr|e];
        cbn [bind result_eq]; [|reflexivity].
      destruct (_calculate_individual_E (charge_at hp cr) tr x y z pcharge_field)
        as [E|]; cbn [bind result_eq]; [|reflexivity].
      eapply result_eq_trans; [exact field_eq_trans | | apply IH].
      apply E_loop_compat, field_add_assoc.
Qed.

End Superposition.

(** X4. Superposition.  The E-field [calculate_E] returns for the charges
    [l1 ++ l2] is the sum of the field it returns for the charges [l1] without
    the external field and the field it returns for the charges [l2]; the
    charges of [l1] are processed first, so an exception raised for one of
    them is the one raised. *)
Theorem calculate_E_superposition (C : Collaborators) (Idx : Type) (hp : Heap)
  (sim : Simulation) (l1 l2 : list cref) (t : R) (x y z : ndarray Idx)
  (pcharge_field : string) (exclude_charges : option (list cref)) :
  result_eq field_eq
    (calculate_E hp (set_charges sim (l1 ++ l2)) t x y z pcharge_field
                 exclude_charges)
    (E1 <- calculate_E hp (set_external (set_charges sim l1) None (B_field sim)
                                        (h sim))
                       t x y z pcharge_field exclude_charges ;;
     E2 <- calculate_E hp (set_charges sim l2) t x y z pcharge_field
                       exclude_charges ;;
     Ok (field_add E1 E2)).
Proof.
  unfold calculate_E; cbn [all_charges E_field set_charges set_external].
  change (@E_body C Idx hp (set_charges sim (l1 ++ l2)))
    with (@E_body C Idx hp sim).
  change (@E_body C Idx hp
            (set_external (set_charges sim l1) None (B_field sim) (h sim)))
    with (@E_body C Idx hp sim).
  change (@E_body C Idx hp (set_charges sim l2)) with (@E_body C Idx hp sim).
  rewrite (for_each_app
             (E_body hp sim (full t) x y z pcharge_field exclude_charges) l1 l2
             (zeros, zeros, zeros)).
  destruct (for_each (E_body hp sim (full t) x y z pcharge_field exclude_charges)
                     l1 (zeros, zeros, zeros)) as [S1|e]; cbn [bind result_eq];
    [|reflexivity].
  pose proof (E_loop_shift hp sim (full t) x y z pcharge_field exclude_charges
                l2 S1 (zeros, zeros, zeros)) as Hshift.
  pose proof (E_loop_compat hp sim (full t) x y z pcharge_field exclude_charges
                l2 S1 (field_add S1 (zeros, zeros, zeros))) as Hcompat.
  assert (H0 : field_eq S1 (field_add S1 (zeros, zeros, zeros)))
    by (pointwise; repeat split; intros i; ring).
  specialize (Hcompat H0).
  pose proof (result_eq_trans field_eq _ _ _ field_eq_trans Hcompat Hshift) as H.
  clear Hshift Hcompat.
  set (body := E_body hp sim (full t) x y z pcharge_field exclude_charges) in *.
  destruct (for_each body l2 S1) as [F|e1];
    destruct (for_each body l2 (zeros, zeros, zeros)) as [F0|e2];
    cbn [bind result_eq] in *; try exact H.
  unfold add_external; destruct (E_field sim) as [f|].
  - revert H; pointwise. intros (H1 & H2 & H3); repeat split; intros i;
      [rewrite H1 | rewrite H2 | rewrite H3]; ring.
  - exact H.
Qed.

(** ** The modes of the B-field *)

Lemma B_of_E_additive {Idx : Type} (ch : Charge.t) (tr x y z : ndarray Idx)
  (V A : field3 Idx) :
  field_eq (B_of_E ch tr x y z (field_add V A))
           (field_add (B_of_E ch tr x y z V) (B_of_E ch tr x y z A)).
Proof.
  destruct V as [[V1 V2] V3], A as [[A1 A2] A3].
  unfold B_of_E, field_add; cbn [fst snd].
  unfold field_eq, arr_eq, asqrt, lift2, lift1, full; cbn [fst snd].
  repeat split; intros i; ring.
Qed.

Section MagneticModes.
Context {C : Collaborators} {Idx : Type}.
Variables (hp : Heap) (sim : Simulation) (t_array x y z : ndarray Idx).
Variable exclude_charges : option (list cref).

Lemma B_loop_modes (l : list cref) :
  forall T V A : field3 Idx,
    field_eq T (field_add V A) ->
    modes_agree
      (for_each (B_body hp sim t_array x y z "Total" exclude_charges) l T)
      (for_each (B_body hp sim t_array x y z "Velocity" exclude_charges) l V)
      (for_each (B_body hp sim t_array x y z "Acceleration" exclude_charges) l A).
Proof.
  induction l as [|cr l IH]; intros T V A HT; cbn [for_each].
  - exact HT.
  - unfold B_body at 1 3 5.
    destruct (excluded hp cr exclude_charges); cbn [bind].
    + apply IH, HT.
    + destruct (retarded_time sim (charge_at hp cr) t_array x y z) as [tr|e];
        cbn [bind]; [|split; reflexivity].
      destruct (individual_E_modes (charge_at hp cr) tr x y z)
        as (V0 & A0 & HV & HA & HS).
      rewrite HV, HA, HS; cbn [bind].
      apply IH.
      pose proof (B_of_E_additive (charge_at hp cr) tr x y z V0 A0) as Hadd.
      revert HT Hadd. pointwise.
      intros (H1 & H2 & H3) (K1 & K2 & K3); repeat split; intros i;
        [rewrite H1, K1 | rewrite H2, K2 | rewrite H3, K3]; ring.
Qed.

End MagneticModes.

(** X5. The modes of the B-field.  The 'Velocity' and 'Acceleration' outputs of
    [calculate_B] add up to the 'Total' output plus one more copy of the
    external B-field's value, and the three calls raise together. *)
Theorem calculate_B_decomposition (C : Collaborators) (Idx : Type) (hp : Heap)
  (sim : Simulation) (t : R) (x y z : ndarray Idx)
  (exclude_charges : option (list cref)) :
  result_eq field_eq
    (sum_results (calculate_B hp sim t x y z "Velocity" exclude_charges)
                 (calculate_B hp sim t x y z "Acceleration" exclude_charges))
    (B <- calculate_B hp sim t x y z "Total" exclude_charges ;;
     Ok (add_external (B_field sim) t x y z B)).
Proof.
  unfold calculate_B, sum_results.
  pose proof (B_loop_modes hp sim (full t) x y z exclude_charges
                (all_charges sim) (zeros, zeros, zeros) (zeros, zeros, zeros)
                (zeros, zeros, zeros)) as H.
  unfold modes_agree in H.
  destruct (for_each (B_body hp sim (full t) x y z "Total" exclude_charges) _ _)
    as [T|e1];
  destruct (for_each (B_body hp sim (full t) x y z "Velocity" exclude_charges) _ _)
    as [V|e2];
  destruct (for_each (B_body hp sim (full t) x y z "Acceleration" exclude_charges) _ _)
    as [A|e3]; cbn [bind result_eq];
    try (exfalso; apply H; pointwise; repeat split; intros i; ring).
  - assert (HT : field_eq T (field_add V A))
      by (apply H; pointwise; repeat split; intros i; ring).
    unfold add_external; destruct (B_field sim) as [f|].
    + revert HT; pointwise. intros (H1 & H2 & H3).
      repeat split; intros i; [rewrite H1 | rewrite H2 | rewrite H3]; ring.
    + apply field_eq_sym, HT.
  - destruct H as [H1 H2]; [|congruence].
    pointwise; repeat split; intros i; ring.
Qed.

(** ** Construction *)

Lemma add_sources_flat (hp : Heap) (l : list source) :
  forall acc : list cref * list dref,
    fold_left (add_source hp) l acc
    = (fst acc ++ flat_map (source_charges hp) l,
       snd acc ++ flat_map source_dipoles l).
Proof.
  induction l as [|s l IH]; intros [cs ds]; cbn [fold_left flat_map fst snd].
  - rewrite !app_nil_r. reflexivity.
  - rewrite IH. destruct s as [cr|d]; cbn [add_source source_charges
                                            source_dipoles fst snd].
    + rewrite <- !app_assoc. cbn [app]. reflexivity.
    + rewrite <- !app_assoc. cbn [app]. reflexivity.
Qed.

(** X6. Construction.  [__init__] lists in [all_charges], in the order of the
    sources, each charge source and the two member charges of each dipole
    source, and in [dipoles] the dipole sources in their order, so that
    [all_charges] has one entry per source plus one per dipole; a single
    source is treated as the one-element sequence; [timesteps], [dt] and
    [save_E] start unset. *)
Theorem init_lists_sources_in_order (hp : Heap) (l : list source) (s : source)
  (E B : option ext_field) (h0 : option R) :
  let sim := __init__ hp (Sequence l) E B h0 in
  all_charges sim = flat_map (source_charges hp) l
  /\ dipoles sim = flat_map source_dipoles l
  /\ List.length (all_charges sim)
     = (List.length l + List.length (dipoles sim))%nat
  /\ __init__ hp (Single s) E B h0 = __init__ hp (Sequence [s]) E B h0
  /\ timesteps sim = None /\ dt sim = None /\ save_E sim = None.
Proof.
  cbn zeta. unfold __init__; cbn [all_charges dipoles timesteps dt save_E].
  rewrite add_sources_flat; cbn [fst snd app].
  repeat split.
  induction l as [|s0 l IH]; cbn [flat_map List.length]; [reflexivity|].
  rewrite !length_app, IH.
  destruct s0; cbn [source_charges source_dipoles List.length]; lia.
Qed.

(** ** The Runge-Kutta step *)

Lemma rk4_forced_free (dipole : Dipole.t) (dt0 : R) (p : vec3) (y : state2) :
  rk4_forced dipole dt0 (vmul p (0, 0, 0)) (vmul p (0, 0, 0))
             (vmul p (0, 0, 0)) (vmul p (0, 0, 0)) y
  = taylor4 dipole dt0 y.
Proof.
  destruct y as [[[d1 d2] d3] [[v1 v2] v3]], p as [[p1 p2] p3].
  cbv beta iota zeta delta
    [rk4_forced taylor4 LO_free LO_rhs sadd sscale sdiv vadd vsub vscale vdiv
     vmul vx vy vz fst snd].
  generalize (Dipole.q dipole / Dipole.m_eff dipole) as k; intros k.
  apply state2_ext; field.
Qed.

(** X7. The step of an undriven dipole.  For a dipole that is alone in a
    simulation without external E-field, one step of [_rk4] is the Taylor
    polynomial of degree 4 in [dt] of the flow of the damped oscillator
    [y' = L y], [L (disp, vel) = (vel, -gamma_0 vel - omega_0^2 disp)]: the
    step is exact to fourth order. *)
Theorem rk4_of_undriven_dipole (C : Collaborators) (hp : Heap)
  (sim : Simulation) (t_step : nat) (d : dref) (dt0 : R) (y0 y1 : vec3) :
  all_charges sim = [fst (Dipole.charge_pair (dipole_at hp d));
                     snd (Dipole.charge_pair (dipole_at hp d))] ->
  E_field sim = None ->
  dt sim = Some dt0 ->
  col (Dipole.moment_disp (dipole_at hp d)) t_step = Ok y0 ->
  col (Dipole.moment_vel (dipole_at hp d)) t_step = Ok y1 ->
  _rk4 hp sim t_step d = Ok (taylor4 (dipole_at hp d) dt0 (y0, y1)).
Proof.
  intros Hall Hext Hdt Hd Hv.
  rewrite rk4_unfolds_to_stage_forcing. unfold rk4_stage_forcing. cbv zeta.
  rewrite Hd, Hv; cbn [bind]. unfold get_dt; rewrite Hdt; cbn [bind].
  repeat (rewrite (lone_dipole_not_driven hp sim _ d Hall Hext); cbn [bind]).
  rewrite rk4_forced_free. reflexivity.
Qed.

(** The moving dipole's first step. *)
Lemma moving_dipole_step_is_taylor :
  _rk4 (C := drift V2) hp1 sim1 0%nat 0%nat
  = Ok (taylor4 (dipole_at hp1 0%nat) 1 ((12 / 5, 0, 0), (0, 0, 0))).
Proof.
  apply (rk4_of_undriven_dipole (drift V2) hp1 sim1 0%nat 0%nat 1
           (12 / 5, 0, 0) (0, 0, 0)).
  - rewrite hp1_dipole. reflexivity.
  - reflexivity.
  - reflexivity.
  - rewrite hp1_dipole. reflexivity.
  - rewrite hp1_dipole. reflexivity.
Defined.





(** ** Runs that integrate nothing *)

Lemma no_dipoles_no_steps {C : Collaborators} (sim : Simulation) (max_vel : R)
  (steps : list nat) (hp : Heap) :
  for_each (run_step sim max_vel []) steps hp = Ok hp.
Proof.
  induction steps as [|n steps IH]; cbn [for_each]; [reflexivity|].
  unfold run_step at 1; cbn [for_each bind]. exact IH.
Qed.

(** X9. Runs that integrate nothing.  With one timestep, or without dipoles,
    [run] without file and without field saving only resets the dipoles and
    sets the run's attributes: it computes no step, calls neither the root
    finder nor the velocity guard, and returns normally whatever [max_vel],
    when the resets return. *)
Theorem run_without_steps (C : Collaborators) (hp : Heap) (sim : Simulation)
  (n : Z) (dt0 : R) (max_vel : option R) :
  n = 1%Z \/ dipoles sim = [] ->
  run hp sim n dt0 None false max_vel
  = Ok {| heap_after :=
            fold_left (fun hp' d => reset hp' d n dt0 false) (dipoles sim) hp;
          sim_after := with_run sim n dt0 false;
          saved := None |}.
Proof.
  intros H. unfold run, _init_simulation; cbn [bind fst snd].
  unfold tsteps; cbn [with_run timesteps bind dipoles].
  destruct H as [H|H].
  - subst n. cbn [Z.sub Z.add Z.opp Z.pos_sub Z.to_nat seq for_each bind].
    reflexivity.
  - rewrite H; cbn [fold_left]. rewrite no_dipoles_no_steps; cbn [bind].
    reflexivity.
Qed.

(** The moving dipole is reset and not advanced by a run of one timestep, and
    a simulation of one charge runs a thousand timesteps without a step. *)
Lemma runs_without_steps :
  run (C := drift V2) moving_heap moving_sim 1 1 None false None
  = Ok {| heap_after := spec_reset V2 moving_heap 0%nat 1 1 false;
          sim_after := with_run moving_sim 1 1 false;
          saved := None |}
  /\ run (C := bench 0) still_heap one_charge 1000 1 None false None
     = Ok {| heap_after := still_heap;
             sim_after := with_run one_charge 1000 1 false;
             saved := None |}.
Proof.
  split.
  - exact (run_without_steps (drift V2) moving_heap moving_sim 1 1 None
             (or_introl eq_refl)).
  - exact (run_without_steps (bench 0) still_heap one_charge 1000 1 None
             (or_intror eq_refl)).
Defined.

(** ** Restoring from a file *)

Lemma scan_first_match {C : Collaborators} (hp : Heap) (self : Simulation)
  (entries : list Simulation) :
  match scan hp self entries with
  | Some s =>
      exists before after,
        entries = before ++ s :: after
        /\ __eq__ hp self (PySimulation s) = true
        /\ forallb (fun s' => negb (__eq__ hp self (PySimulation s'))) before
           = true
  | None =>
      forallb (fun s' => negb (__eq__ hp self (PySimulation s'))) entries = true
  end.
Proof.
  induction entries as [|s0 entries IH]; cbn [scan forallb]; [reflexivity|].
  destruct (__eq__ hp self (PySimulation s0)) eqn:E; cbn [negb andb].
  - exists [], entries. repeat split. exact E.
  - destruct (scan hp self entries) as [s|].
    + destruct IH as (before & after & -> & Hs & Hb).
      exists (s0 :: before), after. cbn [app forallb]. rewrite E, Hb.
      repeat split. exact Hs.
    + exact IH.
Qed.

(** X10. The outcome of [_load] on a file of whole pickled simulations, or
    without a file.  It returns [True] exactly when the file exists and holds
    a simulation equal to [self], and it then restores from the first such
    simulation; when it returns [False] (no file, an empty file, no equal
    simulation) it leaves every object as it was.  It never touches a charge
    object. *)
Theorem load_outcome (C : Collaborators) (hp : Heap) (self : Simulation)
  (file : option (list Simulation)) :
  (snd (_load hp self file) = true
   <-> exists before s after,
        file = Some (before ++ s :: after)
        /\ __eq__ hp self (PySimulation s) = true
        /\ forallb (fun s' => negb (__eq__ hp self (PySimulation s'))) before
           = true
        /\ fst (_load hp self file)
           = restore hp (combine (dipoles self) (dipoles s)))
  /\ (snd (_load hp self file) = false -> fst (_load hp self file) = hp)
  /\ _load hp self None = (hp, false)
  /\ _load hp self (Some []) = (hp, false)
  /\ charge_at (fst (_load hp self file)) = charge_at hp.
Proof.
  split; [|split; [|split; [|split]]]; try reflexivity.
  - unfold _load. destruct file as [entries|]; cbn [snd fst].
    + pose proof (scan_first_match hp self entries) as H.
      destruct (scan hp self entries) as [s|]; cbn [snd fst].
      * destruct H as (before & after & -> & Hs & Hb).
        split; [|reflexivity]. intros _.
        exists before, s, after. repeat split; assumption.
      * split; [discriminate|].
        intros (before & s & after & Hf & Hs & _ & _).
        injection Hf as ->. rewrite forallb_app in H. cbn [forallb] in H.
        rewrite Hs in H. cbn [negb andb] in H.
        rewrite andb_false_r in H. discriminate.
    + split; [discriminate|]. intros (before & s & after & Hf & _).
      discriminate.
  - unfold _load. destruct file as [entries|]; cbn [snd fst]; [|reflexivity].
    destruct (scan hp self entries); cbn [snd fst]; [discriminate | reflexivity].
  - unfold _load. destruct file as [entries|]; cbn [snd fst]; [|reflexivity].
    destruct (scan hp self entries); cbn [snd fst];
      [apply restore_charges | reflexivity].
Qed.

(** X11. What a restore hands over.  When the dipoles of the simulation are
    distinct objects and none of them is a dipole of the stored simulation,
    the restore of [_load] gives the k-th dipole of the simulation exactly the
    attributes of the k-th stored dipole, and it leaves alone every dipole
    beyond the shorter of the two lists. *)
Theorem restore_hands_over (hp : Heap) (ds ds' : list dref) :
  NoDup ds ->
  (forall d', In d' ds' -> ~ In d' ds) ->
  (forall k d d',
      nth_error ds k = Some d -> nth_error ds' k = Some d' ->
      dipole_at (restore hp (combine ds ds')) d = dipole_at hp d')
  /\ (forall d, ~ In d (firstn (List.length ds') ds) ->
                dipole_at (restore hp (combine ds ds')) d = dipole_at hp d).
Proof.
  intros Hnd Hdis. split; [|intros d; apply restore_untouched].
  revert ds' hp Hnd Hdis.
  induction ds as [|d0 ds IH]; intros ds' hp Hnd Hdis k d d' Hk Hk'.
  - destruct k; discriminate.
  - destruct ds' as [|d0' ds']; [destruct k; discriminate|].
    inversion Hnd as [|? ? Hnotin Hnd']; subst.
    unfold restore; cbn [combine fold_left fst snd].
    fold (restore (upd_dipole hp d0 (dipole_at hp d0')) (combine ds ds')).
    destruct k as [|k]; cbn [nth_error] in Hk, Hk'.
    + injection Hk as <-. injection Hk' as <-.
      rewrite restore_untouched.
      * apply upd_dipole_same.
      * intros H. apply Hnotin. eapply firstn_subset, H.
    + rewrite (IH ds' (upd_dipole hp d0 (dipole_at hp d0')) Hnd'
                 (fun x Hx Hin => Hdis x (or_intror Hx) (or_intror Hin))
                 k d d' Hk Hk').
      apply upd_dipole_other. intros ->.
      apply (Hdis d0 (or_intror (nth_error_In _ _ Hk'))). left; reflexivity.
Qed.

(** The restore of the twin simulation hands the dipole 0 the attributes of
    the stored dipole 1. *)
Lemma twin_restore :
  dipole_at (restore twin_heap (combine [0%nat] [1%nat])) 0%nat
  = dipole_at twin_heap 1%nat.
Proof.
  assert (Hnd : NoDup [0%nat]) by (constructor; [intros [] | constructor]).
  assert (Hdis : forall d', In d' [1%nat] -> ~ In d' [0%nat]).
  { intros d' [<-|[]] [H|[]]. discriminate H. }
  exact (proj1 (restore_hands_over twin_heap [0%nat] [1%nat] Hnd Hdis)
           0%nat 0%nat 1%nat eq_refl eq_refl).
Defined.

(** ** The partition of the dipoles among the MPI processes *)






(** ** Save files *)

Lemma count_loads_length (entries : list Simulation) (n : Z) :
  count_loads entries n = (n + Z.of_nat (List.length entries))%Z.
Proof.
  revert n; induction entries as [|s entries IH]; intros n;
    cbn [count_loads List.length].
  - lia.
  - rewrite IH. lia.
Qed.

(** X13. [get_file_length] returns the number of simulations the file holds,
    0 for an empty file, and -1 exactly when there is no such file. *)
Theorem get_file_length_counts (fs : files) (file : string) :
  (forall entries, fs file = Some entries ->
                   get_file_length fs file = Z.of_nat (List.length entries))
  /\ (get_file_length fs file = (-1)%Z <-> fs file = None)
  /\ (-1 <= get_file_length fs file)%Z.
Proof.
  unfold get_file_length. destruct (fs file) as [entries|].
  - rewrite count_loads_length. repeat split; try lia.
    + intros entries' H; injection H as <-. lia.
    + discriminate.
  - repeat split; try lia. discriminate.
Qed.

Lemma dump_same (fs : files) (file : string) (s : Simulation) :
  dump fs file s file = Some (entries_of fs file ++ [s]).
Proof.
  unfold dump, entries_of. rewrite String.eqb_refl.
  destruct (fs file); reflexivity.
Qed.

Lemma dump_other (fs : files) (file name : string) (s : Simulation) :
  name <> file -> dump fs file s name = fs name.
Proof.
  intros H. unfold dump. destruct (String.eqb_spec name file); [contradiction|].
  reflexivity.
Qed.

(** X14. [_save] creates the file when it does not exist, puts the simulation
    at the end of it, lengthens it by one for [get_file_length], and leaves
    every other file as it was. *)
Theorem save_appends (fs : files) (self : Simulation) (file name : string) :
  _save fs self file file = Some (entries_of fs file ++ [self])
  /\ get_file_length (_save fs self file) file
     = (Z.max 0 (get_file_length fs file) + 1)%Z
  /\ (name <> file -> _save fs self file name = fs name).
Proof.
  unfold _save. split; [apply dump_same|]. split; [|apply dump_other].
  unfold get_file_length. rewrite dump_same, !count_loads_length.
  unfold entries_of. destruct (fs file) as [entries|].
  - rewrite count_loads_length, length_app; cbn [List.length]. lia.
  - cbn [app List.length]. lia.
Qed.










(** ** The example of an external field *)

(** X17. The example's plane wave.  For the simulation of
    [examples/external_field.py] (no charges, the external field [E_field])
    [calculate_E] returns, at every mesh position, the field
    [(1e8 sin(2 pi/wavelength (x - c t)), 0, 0)]: its x component stays within
    [-1e8, 1e8], and the field is the same when the time advances by [tau] and
    the mesh is moved by [c tau] along x (the wave travels at the speed of
    light). *)
Theorem example_field_is_a_travelling_wave (C : Collaborators) (Idx : Type)
  (hp : Heap) (t tau : R) (x y z : ndarray Idx) (pcharge_field : string)
  (exclude_charges : option (list cref)) :
  exists E E' : field3 Idx,
    calculate_E hp (plane_wave_simulation hp) t x y z pcharge_field
                exclude_charges = Ok E
    /\ calculate_E hp (plane_wave_simulation hp) (t + tau)
                   (x [+] full (c * tau)) y z pcharge_field exclude_charges
       = Ok E'
    /\ forall i : Idx,
        at_pos E i = (1e8 * sin (2 * pi / wavelength * (x i - c * t)), 0, 0)
        /\ at_pos E' i = at_pos E i
        /\ -1e8 <= vx (at_pos E i) <= 1e8.
Proof.
  eexists; eexists. split; [reflexivity|]. split; [reflexivity|].
  intros i.
  unfold add_external, plane_wave_simulation, __init__; cbn [E_field].
  unfold plane_wave, at_pos, field_add, zeros, vx;
    unfold lift2, lift1, full; cbn [fst snd].
  split; [apply vec3_ext; ring|]. split.
  - apply vec3_ext; try ring.
    replace (x i + c * tau - c * (t + tau)) with (x i - c * t) by ring.
    reflexivity.
  - pose proof (SIN_bound (2 * pi / wavelength * (x i - c * t))) as [Hlo Hhi].
    split; nra.
Qed.

(** ** [run_mpi] with one process *)

Lemma map_snd_combine_seq {A : Type} (l : list A) (o : nat) :
  map snd (combine (seq o (List.length l)) l) = l.
Proof.
  revert o; induction l as [|a l IH]; intros o; cbn [List.length seq combine map];
    [reflexivity|].
  cbn [snd]. rewrite IH. reflexivity.
Qed.

Lemma slice_step_all {A : Type} (l : list A) : slice_step l 0 1 = l.
Proof.
  unfold slice_step.
  rewrite forallb_filter_id.
  - apply map_snd_combine_seq.
  - apply forallb_forall. intros [i a] _. cbn [fst].
    rewrite Nat.mod_1_r. reflexivity.
Qed.

Lemma receive_from_oneself {C : Collaborators} (sim : Simulation) (max_vel : R)
  (MPI : MPI_module) (tstep : nat) (hp : Heap) :
  Get_size MPI = 1%nat -> Get_rank MPI = 0%nat ->
  for_each (mpi_receive sim max_vel MPI tstep) (seq 0 (Get_size MPI)) hp = Ok hp.
Proof.
  intros Hs Hr. rewrite Hs; cbn [seq for_each].
  unfold mpi_receive. rewrite Hr; cbn [Nat.eqb bind]. reflexivity.
Qed.

(** X18. [run_mpi] with one process.  Started with a single MPI process
    (size 1, rank 0), [run_mpi] returns what [run] returns: the same heap, the
    same attributes, the same save, the same exception. *)
Theorem run_mpi_with_one_process (C : Collaborators) (MPI : MPI_module)
  (hp : Heap) (sim : Simulation) (n : Z) (dt0 : R)
  (file : option (option (list Simulation))) (save : bool)
  (max_vel : option R) :
  Get_size MPI = 1%nat -> Get_rank MPI = 0%nat ->
  run_mpi (Some MPI) hp sim n dt0 file save max_vel
  = run hp sim n dt0 file save max_vel.
Proof.
  intros Hs Hr. unfold run_mpi, run.
  destruct (_init_simulation hp sim n dt0 save) as [[hpi simi]|e]; cbn [bind];
    [|reflexivity].
  match goal with
  | |- (if snd ?l then _ else _) = _ => destruct (snd l); [reflexivity|]
  end.
  rewrite Hs, Hr; cbn [Nat.eqb]. rewrite slice_step_all.
  destruct (tsteps simi) as [steps|e]; cbn [bind]; [|reflexivity].
  assert (Hloop : forall hp0,
             for_each (mpi_step simi
                         match max_vel with Some v => v | None => c / 100 end
                         MPI (dipoles simi)) steps hp0
             = for_each (run_step simi
                           match max_vel with Some v => v | None => c / 100 end
                           (dipoles simi)) steps hp0).
  { apply for_each_ext. intros tstep hp0 _. unfold mpi_step, run_step.
    change (mpi_own_step simi) with (step_dipole simi).
    destruct (for_each _ (dipoles simi) hp0) as [hpa|e]; cbn [bind];
      [|reflexivity].
    apply receive_from_oneself; assumption. }
  rewrite Hloop.
  destruct (for_each _ steps _) as [hpb|e]; cbn [bind]; [|reflexivity].
  destruct file; reflexivity.
Qed.

(** The two-timestep run of the moving dipole, as one MPI process. *)
Lemma moving_run_as_one_process :
  run_mpi (C := drift V2) (Some single_process) moving_heap moving_sim 2 1 None
          false (Some 2)
  = run (C := drift V2) moving_heap moving_sim 2 1 None false (Some 2).
Proof.
  exact (run_mpi_with_one_process (drift V2) single_process moving_heap
           moving_sim 2 1 None false (Some 2) eq_refl eq_refl).
Defined.

(** ** The order of the charges *)

Section ChargeOrder.
Context {C : Collaborators} {Idx : Type}.
Variables (hp : Heap) (sim : Simulation) (t_array x y z : ndarray Idx).
Variable pcharge_field : string.
Variable exclude_charges : option (list cref).

Let body := E_body hp sim t_array x y z pcharge_field exclude_charges.
Let contribution :=
  E_contribution hp sim t_array x y z pcharge_field exclude_charges.

Lemma E_body_contribution (acc : field3 Idx) (cr : cref) :
  body acc cr = (k <- contribution cr ;; Ok (add_contribution acc k)).
Proof.
  unfold body, contribution, E_body, E_contribution.
  destruct (excluded hp cr exclude_charges); cbn [bind add_contribution];
    [reflexivity|].
  destruct (retarded_time sim (charge_at hp cr) t_array x y z) as [tr|e];
    cbn [bind]; [|reflexivity].
  destruct (_calculate_individual_E (charge_at hp cr) tr x y z pcharge_field);
    reflexivity.
Qed.

Lemma add_contribution_compat (acc acc' : field3 Idx) (k : option (field3 Idx)) :
  field_eq acc acc' ->
  field_eq (add_contribution acc k) (add_contribution acc' k).
Proof.
  intros H. destruct k as [E|]; cbn [add_contribution]; [|exact H].
  apply field_add_compat; [exact H | apply field_eq_refl].
Qed.

Lemma add_contribution_swap (acc acc' : field3 Idx) (k1 k2 : option (field3 Idx)) :
  field_eq acc acc' ->
  field_eq (add_contribution (add_contribution acc k1) k2)
           (add_contribution (add_contribution acc' k2) k1).
Proof.
  destruct k1 as [E1|], k2 as [E2|]; cbn [add_contribution]; pointwise;
    intros (H1 & H2 & H3); repeat split; intros i;
    (rewrite ?H1, ?H2, ?H3; ring).
Qed.

Lemma E_loop_permutation (l l' : list cref) :
  Permutation l l' ->
  forall acc acc' F : field3 Idx,
    field_eq acc acc' ->
    for_each body l acc = Ok F ->
    exists F', for_each body l' acc' = Ok F' /\ field_eq F F'.
Proof.
  induction 1 as [|cr l l' Hperm IH|cr1 cr2 l|l l' l'' H1 IH1 H2 IH2];
    intros acc acc' F Hacc; cbn [for_each].
  - intros H; injection H as <-. exists acc'. split; [reflexivity | exact Hacc].
  - rewrite !E_body_contribution.
    destruct (contribution cr) as [k|e]; cbn [bind]; [|discriminate].
    apply IH, add_contribution_compat, Hacc.
  - rewrite !E_body_contribution.
    destruct (contribution cr2) as [k2|e] eqn:Hk2; cbn [bind]; [|discriminate].
    rewrite !E_body_contribution.
    destruct (contribution cr1) as [k1|e]; cbn [bind]; [|discriminate].
    rewrite E_body_contribution, Hk2; cbn [bind].
    intros Hloop.
    pose proof (E_loop_compat hp sim t_array x y z pcharge_field exclude_charges
                  l _ _ (add_contribution_swap acc acc' k2 k1 Hacc)) as Hc.
    fold body in Hc. rewrite Hloop in Hc.
    destruct (for_each body l (add_contribution (add_contribution acc' k1) k2))
      as [F'|e]; cbn [result_eq] in Hc; [|contradiction].
    exists F'. split; [reflexivity | exact Hc].
  - intros Hloop.
    destruct (IH1 acc acc F (field_eq_refl acc) Hloop) as (F1 & HF1 & Heq1).
    destruct (IH2 acc acc' F1 Hacc HF1) as (F2 & HF2 & Heq2).
    exists F2. split; [exact HF2 | eapply field_eq_trans; eassumption].
Qed.

End ChargeOrder.

(** X19. The order of the charges does not matter.  When [calculate_E]
    returns for a simulation, it returns, with the same field at every mesh
    position, for every simulation that holds the same charges in another
    order. *)
Theorem calculate_E_any_order (C : Collaborators) (Idx : Type) (hp : Heap)
  (sim : Simulation) (l' : list cref) (t : R) (x y z : ndarray Idx)
  (pcharge_field : string) (exclude_charges : option (list cref))
  (F : field3 Idx) :
  Permutation (all_charges sim) l' ->
  calculate_E hp sim t x y z pcharge_field exclude_charges = Ok F ->
  exists F',
    calculate_E hp (set_charges sim l') t x y z pcharge_field exclude_charges
    = Ok F'
    /\ field_eq F F'.
Proof.
  intros Hperm. unfold calculate_E; cbn [all_charges set_charges E_field].
  change (@E_body C Idx hp (set_charges sim l')) with (@E_body C Idx hp sim).
  destruct (for_each _ (all_charges sim) _) as [S|e] eqn:Hloop; cbn [bind];
    [|discriminate].
  intros H; injection H as <-.
  destruct (E_loop_permutation hp sim (full t) x y z pcharge_field
              exclude_charges _ _ Hperm _ (zeros, zeros, zeros) _
              (field_eq_refl _) Hloop) as (S' & HS' & Heq).
  rewrite HS'; cbn [bind]. eexists; split; [reflexivity|].
  unfold add_external. destruct (E_field sim) as [f|]; [|exact Heq].
  apply field_add_compat; [exact Heq | apply field_eq_refl].
Qed.

Lemma two_still_charges_in_either_order :
  exists F F' : field3 unit,
    calculate_E (C := bench 0) still_heap
      (set_charges one_charge [0%nat; 1%nat]) 0 (full 0) (full 2) (full 0)
      "Total" None = Ok F
    /\ calculate_E (C := bench 0) still_heap
         (set_charges (set_charges one_charge [0%nat; 1%nat]) [1%nat; 0%nat])
         0 (full 0) (full 2) (full 0) "Total" None = Ok F'
    /\ field_eq F F'.
Proof.
  eexists.
  match goal with
  | |- exists _, ?lhs = Ok ?F /\ _ => assert (H0 : lhs = Ok F) by reflexivity
  end.
  destruct (calculate_E_any_order (bench 0) unit still_heap
              (set_charges one_charge [0%nat; 1%nat]) [1%nat; 0%nat]
              0 (full 0) (full 2) (full 0) "Total" None _
              (perm_swap 1%nat 0%nat nil) H0) as (F' & H1 & H2).
  exists F'. split; [exact H0 | split; [exact H1 | exact H2]].
Defined.
